(** * findAngular: the multi-threaded pairwise angular-distance engine

    A shallow embedding of [src/main.c].  The program loads a star
    catalogue into the global [star_array], splits the outer index range
    among [num_threads] POSIX threads, lets every thread scan the pairs
    [(i, j)], [i < j < NUM_STARS], of its segment, and reduces the
    per-thread minima and maxima into the globals [min] and [max] under a
    mutex; [mean] is derived after the join.

    - C [double] is IEEE binary64, embedded as Rocq's primitive [float];
      the comparisons of the source are [PrimFloat.ltb], so a NaN operand
      makes every test false, as in C.
    - [int], [uint32_t] and [uint64_t] are embedded in [Z]; the unsigned
      conversions and the wrap-around of the counters are written out.
    - [calculateAngularDistance] is declared in [utility.h] and defined
      outside [main.c]: the engine takes it as a parameter.
    - The macro [NUM_STARS] is a parameter [n] of the engine, so that the
      same definitions run on small arrays; the program instantiates it
      with [NUM_STARS = 30000], and what is stated of a catalogue is
      stated of the program, on the [NUM_STARS] slots of [star_array].
    - The threads share [min] and [max] only inside the critical section;
      a call takes the order in which the threads enter it as a
      parameter, and the results are stated for every such order.
    - [KernelSpec], at the end, holds the kernel as section 4.1 of the
      specification describes it, on real numbers. *)

From Stdlib Require Import ZArith List Lia Bool Floats Permutation.
From Stdlib Require Import Reals Lra.
From Stdlib Require Uint63.
From Stdlib Require Ascii String.
Import ListNotations.
Open Scope Z_scope.

(* ================================================================= *)
(** * C doubles *)

Module Dbl.

(** [DBL_MAX] of [float.h]: the largest finite binary64 number. *)
Definition DBL_MAX : float := 0x1.fffffffffffffp+1023%float.

(** The conversion [uint64_t -> double] applied to [total_count] in
    [total_sum / total_count]: round to nearest, ties to even.  Below
    [2 ^ 63] it is the primitive conversion of Rocq's 63-bit integers;
    from [2 ^ 63] on, the rounding of the specification. *)
Definition of_uint64 (z : Z) : float :=
  if z <? 2 ^ 63 then of_uint63 (Uint63.of_Z z)
  else SF2Prim (binary_normalize prec emax z 0 false).

(** [x != x], the only test that a NaN passes. *)
Definition isnan (x : float) : bool := negb (x =? x)%float.

(** ** The order of the comparisons

    Every specified float that is not a NaN gets a key in
    [Z * Z * Z]; [SFcompare] is the lexicographic comparison of the
    keys.  The two zeros share a key: they compare equal. *)

Definition sf_key (f : spec_float) : Z * Z * Z :=
  match f with
  | S754_zero _ => (0, 0, 0)
  | S754_nan => (0, 0, 0)
  | S754_infinity s => (if s then -2 else 2, 0, 0)
  | S754_finite s m e =>
      if s then (-1, - e, Z.neg m) else (1, e, Z.pos m)
  end.

Definition lex_compare (a b : Z * Z * Z) : comparison :=
  let '(a1, a2, a3) := a in
  let '(b1, b2, b3) := b in
  match a1 ?= b1 with
  | Eq => match a2 ?= b2 with
          | Eq => a3 ?= b3
          | c => c
          end
  | c => c
  end.

Definition sf_nan (f : spec_float) : bool :=
  match f with S754_nan => true | _ => false end.

Lemma SFcompare_nan (a b : spec_float) :
  sf_nan a || sf_nan b = true -> SFcompare a b = None.
Proof. destruct a, b; simpl; congruence. Qed.

Lemma SFcompare_key (a b : spec_float) :
  sf_nan a = false -> sf_nan b = false ->
  SFcompare a b = Some (lex_compare (sf_key a) (sf_key b)).
Proof.
  destruct a as [sa|sa| |sa ma ea], b as [sb|sb| |sb mb eb];
    simpl; try congruence; intros _ _;
    try (destruct sa; reflexivity); try (destruct sb; reflexivity);
    try (destruct sa, sb; reflexivity).
  destruct sa, sb; simpl; try reflexivity.
  rewrite Z.compare_opp, (Z.compare_antisym ea eb).
  destruct (ea ?= eb); reflexivity.
Qed.

(** The order on keys, as propositions [lia] can use. *)
Definition key_lt (a b : Z * Z * Z) : Prop :=
  let '(a1, a2, a3) := a in
  let '(b1, b2, b3) := b in
  a1 < b1 \/ (a1 = b1 /\ (a2 < b2 \/ (a2 = b2 /\ a3 < b3))).

Lemma lex_compare_Lt a b : lex_compare a b = Lt <-> key_lt a b.
Proof.
  destruct a as [[a1 a2] a3], b as [[b1 b2] b3]; simpl.
  destruct (Z.compare_spec a1 b1), (Z.compare_spec a2 b2),
    (Z.compare_spec a3 b3); split; intros; try discriminate; try lia;
    reflexivity.
Qed.

Lemma lex_compare_Eq a b : lex_compare a b = Eq <-> a = b.
Proof.
  destruct a as [[a1 a2] a3], b as [[b1 b2] b3]; simpl.
  destruct (Z.compare_spec a1 b1), (Z.compare_spec a2 b2),
    (Z.compare_spec a3 b3); split; intros H2; try discriminate;
    try (inversion H2; lia); try reflexivity.
  subst; reflexivity.
Qed.

Lemma lex_compare_Gt a b : lex_compare a b = Gt <-> key_lt b a.
Proof.
  destruct a as [[a1 a2] a3], b as [[b1 b2] b3]; simpl.
  destruct (Z.compare_spec a1 b1), (Z.compare_spec a2 b2),
    (Z.compare_spec a3 b3); split; intros; try discriminate; try lia;
    reflexivity.
Qed.

Definition key (x : float) : Z * Z * Z := sf_key (Prim2SF x).
Definition ordered (x : float) : Prop := sf_nan (Prim2SF x) = false.

Lemma ltb_key x y :
  (x <? y)%float = true <-> ordered x /\ ordered y /\ key_lt (key x) (key y).
Proof.
  rewrite ltb_spec. unfold SFltb, ordered, key.
  destruct (sf_nan (Prim2SF x)) eqn:Hx.
  { rewrite SFcompare_nan by (rewrite Hx; reflexivity).
    split; [discriminate | intros [? _]; discriminate]. }
  destruct (sf_nan (Prim2SF y)) eqn:Hy.
  { rewrite SFcompare_nan by (rewrite Hy; apply orb_true_r).
    split; [discriminate | intros [_ [? _]]; discriminate]. }
  rewrite SFcompare_key by assumption. rewrite <- lex_compare_Lt.
  destruct (lex_compare _ _); split; try discriminate; intuition congruence.
Qed.

Lemma leb_key x y :
  (x <=? y)%float = true <->
  ordered x /\ ordered y /\ (key_lt (key x) (key y) \/ key x = key y).
Proof.
  rewrite leb_spec. unfold SFleb, ordered, key.
  destruct (sf_nan (Prim2SF x)) eqn:Hx.
  { rewrite SFcompare_nan by (rewrite Hx; reflexivity).
    split; [discriminate | intros [? _]; discriminate]. }
  destruct (sf_nan (Prim2SF y)) eqn:Hy.
  { rewrite SFcompare_nan by (rewrite Hy; apply orb_true_r).
    split; [discriminate | intros [_ [? _]]; discriminate]. }
  rewrite SFcompare_key by assumption.
  rewrite <- lex_compare_Lt, <- lex_compare_Eq.
  destruct (lex_compare _ _); split; try discriminate; intuition congruence.
Qed.

Lemma eqb_key x y :
  (x =? y)%float = true <-> ordered x /\ ordered y /\ key x = key y.
Proof.
  rewrite eqb_spec. unfold SFeqb, ordered, key.
  destruct (sf_nan (Prim2SF x)) eqn:Hx.
  { rewrite SFcompare_nan by (rewrite Hx; reflexivity).
    split; [discriminate | intros [? _]; discriminate]. }
  destruct (sf_nan (Prim2SF y)) eqn:Hy.
  { rewrite SFcompare_nan by (rewrite Hy; apply orb_true_r).
    split; [discriminate | intros [_ [? _]]; discriminate]. }
  rewrite SFcompare_key by assumption. rewrite <- lex_compare_Eq.
  destruct (lex_compare _ _); split; try discriminate; intuition congruence.
Qed.

Lemma isnan_ordered x : isnan x = false <-> ordered x.
Proof.
  unfold isnan. rewrite negb_false_iff, eqb_key. tauto.
Qed.

(** The order facts the reductions rely on.  [x <? y] is C's [x < y]. *)

Ltac key_order :=
  repeat match goal with
    | H : (_ <? _)%float = true |- _ => apply ltb_key in H
    | H : (_ <=? _)%float = true |- _ => apply leb_key in H
    | H : (_ =? _)%float = true |- _ => apply eqb_key in H
    | H : isnan _ = false |- _ => apply isnan_ordered in H
    | H : _ /\ _ |- _ => destruct H
    | |- (_ <? _)%float = true => apply ltb_key
    | |- (_ <=? _)%float = true => apply leb_key
    | |- (_ =? _)%float = true => apply eqb_key
    | |- isnan _ = false => apply isnan_ordered
    end;
  repeat match goal with
    | x : float |- _ =>
        lazymatch goal with
        | _ : context [key x] |- _ => idtac
        | |- context [key x] => idtac
        end;
        let a := fresh "a" in let b := fresh "b" in let c := fresh "c" in
        destruct (key x) as [[a b] c]
    end;
  unfold key_lt in *.

Lemma ltb_false_iff x y :
  (x <? y)%float = false <->
  ~ (ordered x /\ ordered y /\ key_lt (key x) (key y)).
Proof.
  rewrite <- ltb_key. destruct (x <? y)%float; split; congruence.
Qed.

Lemma ltb_irrefl x : (x <? x)%float = false.
Proof.
  apply ltb_false_iff. intros (_ & _ & H).
  destruct (key x) as [[a b] c]. simpl in H. lia.
Qed.

Lemma ltb_trans x y z :
  (x <? y)%float = true -> (y <? z)%float = true -> (x <? z)%float = true.
Proof. intros. key_order. repeat split; trivial; lia. Qed.

Lemma ltb_leb x y : (x <? y)%float = true -> (x <=? y)%float = true.
Proof. intros. key_order. repeat split; trivial; left; lia. Qed.

Lemma leb_refl x : isnan x = false -> (x <=? x)%float = true.
Proof. intros. key_order. repeat split; trivial; right; reflexivity. Qed.

Lemma leb_trans x y z :
  (x <=? y)%float = true -> (y <=? z)%float = true -> (x <=? z)%float = true.
Proof.
  intros. key_order. repeat split; trivial.
  repeat match goal with
    | H : (_, _, _) = (_, _, _) |- _ => inversion H; clear H; subst
    | H : _ \/ (_, _, _) = (_, _, _) |- _ => destruct H
    end; (left; lia) || (right; reflexivity).
Qed.

Lemma leb_ltb_trans x y z :
  (x <=? y)%float = true -> (y <? z)%float = true -> (x <? z)%float = true.
Proof.
  intros. key_order. repeat split; trivial.
  repeat match goal with
    | H : (_, _, _) = (_, _, _) |- _ => inversion H; clear H; subst
    | H : _ \/ (_, _, _) = (_, _, _) |- _ => destruct H
    end; lia.
Qed.

Lemma leb_antisym x y :
  (x <=? y)%float = true -> (y <=? x)%float = true -> (x =? y)%float = true.
Proof.
  intros. key_order. repeat split; trivial.
  repeat match goal with
    | H : (_, _, _) = (_, _, _) |- _ => inversion H; clear H; subst
    | H : _ \/ (_, _, _) = (_, _, _) |- _ => destruct H
    end; try reflexivity; lia.
Qed.

Lemma leb_isnan x y :
  (x <=? y)%float = true -> isnan x = false /\ isnan y = false.
Proof. intros H. apply leb_key in H. rewrite !isnan_ordered. tauto. Qed.

Lemma ltb_isnan x y :
  (x <? y)%float = true -> isnan x = false /\ isnan y = false.
Proof. intros H. apply ltb_key in H. rewrite !isnan_ordered. tauto. Qed.

(** A failed test [x < y] between two numbers means [y <= x]. *)
Lemma not_ltb_leb x y :
  isnan x = false -> isnan y = false ->
  (x <? y)%float = false -> (y <=? x)%float = true.
Proof.
  intros Hx Hy H. apply ltb_false_iff in H.
  apply isnan_ordered in Hx, Hy. apply leb_key. repeat split; trivial.
  destruct (key x) as [[a b] c], (key y) as [[a' b'] c']. simpl in *.
  assert (D : (a', b', c') = (a, b, c) \/ (a', b', c') <> (a, b, c)).
  { destruct (Z.eq_dec a' a), (Z.eq_dec b' b), (Z.eq_dec c' c); subst;
      (left; reflexivity) || (right; congruence). }
  destruct D as [D | D]; [right; exact D | left].
  assert (~ (a < a' \/ a = a' /\ (b < b' \/ b = b' /\ c < c'))) by tauto.
  assert (a' <> a \/ b' <> b \/ c' <> c).
  { destruct (Z.eq_dec a' a), (Z.eq_dec b' b), (Z.eq_dec c' c); subst;
      try tauto. }
  lia.
Qed.

Lemma eqb_leb x y : (x =? y)%float = true -> (x <=? y)%float = true.
Proof.
  intros H. apply eqb_key in H. apply leb_key.
  destruct H as (? & ? & ->). repeat split; trivial. right; reflexivity.
Qed.

Lemma eqb_sym x y : (x =? y)%float = true -> (y =? x)%float = true.
Proof.
  intros H. apply eqb_key in H. apply eqb_key.
  destruct H as (? & ? & ->). repeat split; trivial.
Qed.

(** ** Zero divided by a count

    The conversion of a positive integer is a positive double (or
    [+infinity]), never a zero or a NaN: the shifts of the rounding drop
    fewer bits than the integer has.  So [0 / count] is [0] for every
    count from 1 on. *)

Lemma digits2_pos_le p : 2 ^ (Z.pos (digits2_pos p) - 1) <= Z.pos p.
Proof.
  induction p as [p IH | p IH |]; cbn [digits2_pos].
  - rewrite Pos2Z.inj_succ. replace (Z.succ (Z.pos (digits2_pos p)) - 1)
      with (Z.succ (Z.pos (digits2_pos p) - 1)) by lia.
    rewrite Z.pow_succ_r by lia. lia.
  - rewrite Pos2Z.inj_succ. replace (Z.succ (Z.pos (digits2_pos p)) - 1)
      with (Z.succ (Z.pos (digits2_pos p) - 1)) by lia.
    rewrite Z.pow_succ_r by lia. lia.
  - simpl. lia.
Qed.

Lemma shr_1_m mrs : 0 <= shr_m mrs -> shr_m (shr_1 mrs) = shr_m mrs / 2.
Proof.
  destruct mrs as [m r s]. simpl. intros H.
  destruct m as [|[p|p|]|p]; cbn [shr_m]; try lia;
    first [ reflexivity
          | apply Z.div_unique with 1; lia
          | apply Z.div_unique with 0; lia ].
Qed.

Lemma iter_pos_shr p : forall mrs, 0 <= shr_m mrs ->
  shr_m (SpecFloat.iter_pos shr_1 p mrs) = shr_m mrs / 2 ^ Z.pos p.
Proof.
  induction p as [p IH | p IH |]; intros mrs H; cbn [SpecFloat.iter_pos].
  - assert (H1 : 0 <= shr_m (shr_1 mrs)) by (rewrite shr_1_m by lia; apply Z.div_pos; lia).
    assert (H2 : 0 <= shr_m (SpecFloat.iter_pos shr_1 p (shr_1 mrs)))
      by (rewrite IH by lia; apply Z.div_pos; lia).
    rewrite IH, IH, shr_1_m by lia.
    rewrite !Z.div_div by lia. f_equal.
    rewrite Pos2Z.inj_xI, Z.add_comm, Z.pow_add_r by lia.
    replace (2 * Z.pos p) with (Z.pos p + Z.pos p) by lia.
    rewrite Z.pow_add_r by lia. change (2 ^ 1) with 2. ring.
  - assert (H2 : 0 <= shr_m (SpecFloat.iter_pos shr_1 p mrs))
      by (rewrite IH by lia; apply Z.div_pos; lia).
    rewrite IH, IH by lia. rewrite Z.div_div by lia. f_equal.
    replace (Z.pos p~0) with (Z.pos p + Z.pos p) by lia.
    rewrite Z.pow_add_r by lia. reflexivity.
  - rewrite shr_1_m by lia. reflexivity.
Qed.

Lemma shr_fexp_pos m e l :
  0 < m -> -1000 <= e ->
  0 < shr_m (fst (shr_fexp prec emax m e l)) /\
  -1000 <= snd (shr_fexp prec emax m e l).
Proof.
  intros Hm He. unfold shr_fexp, shr.
  assert (Hrec : shr_m (shr_record_of_loc m l) = m)
    by (destruct l as [|[]]; reflexivity).
  destruct (fexp prec emax (Zdigits2 m + e) - e) as [|k|k] eqn:En;
    cbn [fst snd]; try (rewrite Hrec; lia).
  rewrite iter_pos_shr by (rewrite Hrec; lia). rewrite Hrec. split; [| lia].
  apply Z.div_str_pos. split; [apply Z.pow_pos_nonneg; lia |].
  destruct m as [|p|p]; try lia. cbn [Zdigits2] in En.
  apply Z.le_trans with (2 ^ (Z.pos (digits2_pos p) - 1));
    [| apply digits2_pos_le].
  apply Z.pow_le_mono_r; [lia |].
  unfold fexp, emin, prec, emax in En. lia.
Qed.

Lemma round_nearest_even_pos m l : 0 < m -> 0 < round_nearest_even m l.
Proof.
  intros H. destruct l as [|[]]; cbn [round_nearest_even]; try lia.
  destruct (Z.even m); lia.
Qed.

Lemma binary_round_aux_pos sx m e l :
  0 < m -> -1000 <= e ->
  (exists m' e', binary_round_aux prec emax sx m e l = S754_finite sx m' e') \/
  binary_round_aux prec emax sx m e l = S754_infinity sx.
Proof.
  intros Hm He. unfold binary_round_aux.
  destruct (shr_fexp_pos m e l Hm He) as [H1 H1e].
  destruct (shr_fexp prec emax m e l) as [mrs' e'] eqn:E1. cbn [fst snd] in *.
  pose proof (round_nearest_even_pos (shr_m mrs') (loc_of_shr_record mrs') H1) as H2.
  destruct (shr_fexp_pos _ e' loc_Exact H2 H1e) as [H3 _].
  destruct (shr_fexp prec emax _ e' loc_Exact) as [mrs'' e''] eqn:E2.
  cbn [fst snd] in *.
  destruct (shr_m mrs'') as [|q|q]; try lia.
  destruct (e'' <=? emax - prec); [left; eauto | right; reflexivity].
Qed.

Lemma binary_round_pos p :
  (exists m' e', binary_round prec emax false p 0 = S754_finite false m' e') \/
  binary_round prec emax false p 0 = S754_infinity false.
Proof.
  unfold binary_round, shl_align.
  assert (He : -1000 <= fexp prec emax (Z.pos (digits2_pos p) + 0)).
  { unfold fexp, emin, prec, emax. lia. }
  destruct (fexp prec emax (Z.pos (digits2_pos p) + 0) - 0) as [|k|k];
    apply binary_round_aux_pos; lia.
Qed.

Lemma zero_div_of_uint64 c :
  1 <= c < 2 ^ 63 -> (0 / of_uint64 c)%float = 0%float.
Proof.
  intros Hc. unfold of_uint64.
  replace (c <? 2 ^ 63) with true by (symmetry; apply Z.ltb_lt; lia).
  rewrite <- (SF2Prim_Prim2SF (0 / _)), <- (SF2Prim_Prim2SF 0). f_equal.
  rewrite div_spec, of_uint63_spec, Uint63.of_Z_spec.
  rewrite Z.mod_small by (change Uint63Axioms.wB with (2 ^ 63); lia).
  change (Prim2SF 0) with (S754_zero false).
  destruct c as [|p|p]; try lia. cbn [binary_normalize].
  destruct (binary_round_pos p) as [(m' & e' & ->) | ->]; reflexivity.
Qed.

End Dbl.

Import Dbl.

(* ================================================================= *)
(** * Machine integers and loop ranges *)

Definition INT_MAX : Z := 2147483647.

(** Conversion to [uint32_t] and [uint64_t]: reduction modulo the width. *)
Definition uint32 (z : Z) : Z := z mod 2 ^ 32.
Definition uint64 (z : Z) : Z := z mod 2 ^ 64.

(** The values [lo, lo + 1, ..., hi - 1] that the counter of
    [for (c = lo; c < hi; c++)] takes; none when [hi <= lo]. *)
Definition range (lo hi : Z) : list Z :=
  map (fun k => lo + Z.of_nat k) (seq 0 (Z.to_nat (hi - lo))).

(* ================================================================= *)
(** * Data

    The fields of [ThreadData], the globals and the locals of the thread
    function carry a prefix ([td_], [g_], [l_]): [end] is a keyword of
    Rocq, and [sum], [min] and [max] name parts of its prelude. *)

(** Modelled from the spec: [struct Star] ([star.h] is not among the
    sources).  [main] assigns [ID] from [atoi] and the two coordinates
    from [atof]; the spec's Position is
    [{ id, rightAscension (degrees), declination (degrees) }]. *)
Record Star : Set := mkStar {
  ID : Z;
  RightAscension : float;
  Declination : float
}.

(** A slot of [star_array] the loader never wrote: static storage is
    zero-initialised. *)
Definition zero_star : Star := mkStar 0 0%float 0%float.

(** [ThreadData]: the segment [start, end) of one thread, the array it
    reads, and the two fields the thread writes back. *)
Record ThreadData : Set := mkThreadData {
  td_start : Z;
  td_end : Z;
  td_arr : list Star;
  td_sum : float;
  td_count : Z
}.

(** The globals [min], [max] and [mean]. *)
Record Globals : Set := mkGlobals {
  g_min : float;
  g_max : float;
  g_mean : float
}.

(** Their initialisers: [DBL_MAX], [0] and [0]. *)
Definition initial_globals : Globals := mkGlobals DBL_MAX 0%float 0%float.

(** The locals of the thread function: [count], [sum], [local_min] and
    [local_max]. *)
Record Locals : Set := mkLocals {
  l_count : Z;
  l_sum : float;
  l_min : float;
  l_max : float
}.

Definition initial_locals : Locals := mkLocals 0 0%float DBL_MAX 0%float.

(** [if (m > d) m = d;] and [if (m < d) m = d;]: the update the thread
    applies to its locals and, under the mutex, to the globals. *)
Definition lower (m d : float) : float := if (d <? m)%float then d else m.
Definition raise (m d : float) : float := if (m <? d)%float then d else m.

(** [arr[i]].  The program only ever passes [star_array], which has
    [NUM_STARS] slots, and no index reaches [NUM_STARS]. *)
Definition star_at (arr : list Star) (i : Z) : Star :=
  nth (Z.to_nat i) arr zero_star.

(** In-place update of [data[k]]. *)
Fixpoint store {A : Type} (k : nat) (x : A) (l : list A) : list A :=
  match l, k with
  | [], _ => []
  | _ :: t, O => x :: t
  | h :: t, S k' => h :: store k' x t
  end.

(* ================================================================= *)
(** * The engine *)

Section Engine.

(** [calculateAngularDistance(ra1, dec1, ra2, dec2)] of [utility.h]. *)
Variable calculateAngularDistance : float -> float -> float -> float -> float.

(** The value of the macro [NUM_STARS]. *)
Variable n : Z.

(** The call at lines 86-87. *)
Definition distance (arr : list Star) (i j : Z) : float :=
  calculateAngularDistance
    (RightAscension (star_at arr i)) (Declination (star_at arr i))
    (RightAscension (star_at arr j)) (Declination (star_at arr j)).

(** The body of the inner loop (lines 86-94): [count++] and the two
    comparisons.  [sum] is not touched. *)
Definition inner_body (arr : list Star) (i : Z) (st : Locals) (j : Z) : Locals :=
  let d := distance arr i j in
  {| l_count := uint64 (l_count st + 1);
     l_sum := l_sum st;
     l_min := lower (l_min st) d;
     l_max := raise (l_max st) d |}.

(** [for (j = i + 1; j < NUM_STARS; j++)], with [j] a [uint32_t]. *)
Definition inner_loop (arr : list Star) (st : Locals) (i : Z) : Locals :=
  fold_left (inner_body arr i) (range (uint32 (i + 1)) (uint32 n)) st.

(** [for (i = start; i < end; i++)], with [i] a [uint32_t] and [start],
    [end] converted from [int]. *)
Definition outer_loop (arr : list Star) (start end_ : Z) : Locals :=
  fold_left (inner_loop arr) (range (uint32 start) (uint32 end_)) initial_locals.

(** The thread function: scan the segment, write [sum] and [count] back
    into the [ThreadData], then update [min] and [max] in the critical
    section. *)
Definition determineAverageAngularDistanceThread
    (data : ThreadData) (g : Globals) : ThreadData * Globals :=
  let st := outer_loop (td_arr data) (td_start data) (td_end data) in
  ({| td_start := td_start data;
      td_end := td_end data;
      td_arr := td_arr data;
      td_sum := l_sum st;
      td_count := l_count st |},
   {| g_min := lower (g_min g) (l_min st);
      g_max := raise (g_max g) (l_max st);
      g_mean := g_mean g |}).

(** [data[i]] as the creation loop fills it (lines 129-131); [sum] and
    [count] are written by the thread before they are read. *)
Definition make_data (arr : list Star) (num_threads stars_per_thread i : Z)
  : ThreadData :=
  {| td_start := i * stars_per_thread;
     td_end := if i =? num_threads - 1 then n else (i + 1) * stars_per_thread;
     td_arr := arr;
     td_sum := 0%float;
     td_count := 0 |}.

(** One thread, [k], running to completion on the shared state.  A thread
    reads and writes the shared [min] and [max] only inside its critical
    section, so every interleaving of the threads is the run of the
    thread functions one after another, in the order in which they take
    the mutex. *)
Definition run_thread (s : list ThreadData * Globals) (k : nat)
  : list ThreadData * Globals :=
  match nth_error (fst s) k with
  | Some d =>
      let r := determineAverageAngularDistanceThread d (snd s) in
      (store k (fst r) (fst s), snd r)
  | None => s
  end.

(** The accumulation loop of lines 142-148. *)
Definition total_sum (data : list ThreadData) : float :=
  fold_left (fun s d => (s + td_sum d)%float) data 0%float.

Definition total_count (data : list ThreadData) : Z :=
  fold_left (fun c d => uint64 (c + td_count d)) data 0.

(** [determineAverageAngularDistance(arr, num_threads)], with the order
    [sched] in which the threads take the mutex.  [None]: the integer
    division [NUM_STARS / num_threads] by zero.  The result carries the
    final [data] array beside the globals. *)
Definition determineAverageAngularDistance_sched
    (sched : list nat) (arr : list Star) (num_threads : Z) (g : Globals)
  : option (list ThreadData * Globals) :=
  if num_threads =? 0 then None
  else
    let stars_per_thread := Z.quot n num_threads in
    let data :=
      map (make_data arr num_threads stars_per_thread) (range 0 num_threads) in
    let s := fold_left run_thread sched (data, g) in
    Some (fst s,
          {| g_min := g_min (snd s);
             g_max := g_max (snd s);
             g_mean := (total_sum (fst s) / of_uint64 (total_count (fst s)))%float |}).

(** The schedule in which the threads finish in the order of creation. *)
Definition in_order (num_threads : Z) : list nat :=
  seq 0 (Z.to_nat num_threads).

Definition determineAverageAngularDistance
    (arr : list Star) (num_threads : Z) (g : Globals)
  : option (list ThreadData * Globals) :=
  determineAverageAngularDistance_sched (in_order num_threads) arr num_threads g.

(** ** Parts of the engine the lemmas name *)

(** One turn of the inner loop, on the pair [p = (i, j)]. *)
Definition pair_body (arr : list Star) (st : Locals) (p : Z * Z) : Locals :=
  inner_body arr (fst p) st (snd p).

(** The indices a [ThreadData] assigns to its thread. *)
Definition segment_range (d : ThreadData) : list Z :=
  range (td_start d) (td_end d).

(** The [data] array of a call with [num_threads] threads, as the
    creation loop fills it. *)
Definition segments (arr : list Star) (num_threads : Z) : list ThreadData :=
  map (make_data arr num_threads (Z.quot n num_threads)) (range 0 num_threads).

(** The locals of a thread at the end of its scan. *)
Definition local_of (d : ThreadData) : Locals :=
  outer_loop (td_arr d) (td_start d) (td_end d).

(** The [ThreadData] after lines 97-98. *)
Definition scanned (d : ThreadData) : ThreadData :=
  mkThreadData (td_start d) (td_end d) (td_arr d)
    (l_sum (local_of d)) (l_count (local_of d)).

(** The critical section, lines 101-108. *)
Definition publish (g : Globals) (st : Locals) : Globals :=
  mkGlobals (lower (g_min g) (l_min st)) (raise (g_max g) (l_max st)) (g_mean g).

(** The threads of [data] that a schedule runs, in its order. *)
Definition selected (sched : list nat) (data : list ThreadData) : list ThreadData :=
  flat_map (fun k => match nth_error data k with Some o => [o] | None => [] end) sched.

(** The per-thread minima and maxima, in the order of the schedule. *)
Definition local_mins (sched : list nat) (data : list ThreadData) : list float :=
  map l_min (map local_of (selected sched data)).

Definition local_maxs (sched : list nat) (data : list ThreadData) : list float :=
  map l_max (map local_of (selected sched data)).

(** ** Reference notions: pairs and separations *)

(** The unique unordered pairs of [0 .. n-1], as [(i, j)] with [i < j]. *)
Definition all_pairs : list (Z * Z) :=
  flat_map (fun i => map (pair i) (range (i + 1) n)) (range 0 n).

(** The pairs the loops of one thread visit, in order. *)
Definition thread_pairs (start end_ : Z) : list (Z * Z) :=
  flat_map (fun i => map (pair i) (range (uint32 (i + 1)) (uint32 n)))
    (range (uint32 start) (uint32 end_)).

(** The pairs with first index [i]. *)
Definition pairs_from (i : Z) : list (Z * Z) := map (pair i) (range (i + 1) n).

(** The pairs of one thread. *)
Definition pairs_of (d : ThreadData) : list (Z * Z) :=
  thread_pairs (td_start d) (td_end d).

Definition pair_distance (arr : list Star) (p : Z * Z) : float :=
  distance arr (fst p) (snd p).

(** The angular separation of every unique pair. *)
Definition pair_distances (arr : list Star) : list float :=
  map (pair_distance arr) all_pairs.

End Engine.

(** A minimum of a list of doubles: a member that is [<=] every member;
    likewise a maximum.  Membership is up to [==], the equality of C,
    under which [+0] and [-0] are one value. *)
Definition is_minimum (m : float) (l : list float) : Prop :=
  (exists d, In d l /\ (m =? d)%float = true) /\
  forall d, In d l -> (m <=? d)%float = true.

Definition is_maximum (m : float) (l : list float) : Prop :=
  (exists d, In d l /\ (m =? d)%float = true) /\
  forall d, In d l -> (d <=? m)%float = true.

(** What [fold_left lower l m0] computes: a number, drawn from [m0 :: l],
    below [m0] and below every number of [l].  NaNs in [l] are skipped. *)
Definition least_from (m0 : float) (l : list float) (m : float) : Prop :=
  isnan m = false /\ (m = m0 \/ In m l) /\ (m <=? m0)%float = true /\
  forall d, In d l -> isnan d = false -> (m <=? d)%float = true.

Definition greatest_from (m0 : float) (l : list float) (m : float) : Prop :=
  isnan m = false /\ (m = m0 \/ In m l) /\ (m0 <=? m)%float = true /\
  forall d, In d l -> isnan d = false -> (d <=? m)%float = true.

(** The contract of the kernel on the pairs of an array: every
    separation is a number of degrees between 0 and 180. *)
Definition in_degrees (d : float) : Prop :=
  (0 <=? d)%float = true /\ (d <=? 180)%float = true.

(** Every separation positive, as for pairwise distinct positions. *)
Definition positive_degrees (d : float) : Prop :=
  (0 <? d)%float = true /\ (d <=? 180)%float = true.

(** The arithmetic mean of a list of separations: their sum over their
    number. *)
Definition arithmetic_mean (l : list float) : float :=
  (fold_left PrimFloat.add l 0 / of_uint64 (Z.of_nat (length l)))%float.

(* ================================================================= *)
(** * The program *)

Definition NUM_STARS : Z := 30000.

(** [star_array] after the loading loop of [main]: record [k] of the
    input sits in slot [k], the other slots keep their zero
    initialisation.  [None]: more than [NUM_STARS] lines, where the loop
    writes past the array. *)
Definition load (records : list Star) : option (list Star) :=
  if Z.of_nat (length records) <=? NUM_STARS
  then Some (records ++ repeat zero_star (Z.to_nat NUM_STARS - length records))
  else None.

(** [main] from the loaded records on: the call of line 237 on
    [star_array] and the initial globals, and the globals it prints. *)
Definition main_sched (kernel : float -> float -> float -> float -> float)
    (sched : list nat) (records : list Star) (num_threads : Z)
  : option Globals :=
  match load records with
  | None => None
  | Some star_array =>
      match determineAverageAngularDistance_sched kernel NUM_STARS sched
              star_array num_threads initial_globals with
      | None => None
      | Some r => Some (snd r)
      end
  end.

(** A kernel to run the engine on: the great-circle separation of two
    positions on one meridian (equal right ascensions) is the difference
    of their declinations. *)
Definition meridian_distance (ra1 dec1 ra2 dec2 : float) : float :=
  abs (dec1 - dec2)%float.

Definition meridian3 : list Star :=
  [mkStar 1 0%float 0%float; mkStar 2 0%float 45%float; mkStar 3 0%float 90%float].

(* ================================================================= *)
(** * Least elements from a previous call, a failing kernel *)

(** A least element when the globals start from [g0] and the locals from
    [DBL_MAX]: what a call leaves in [min], whatever [min] held before. *)
Definition below_all (g0 : float) (l : list float) (m : float) : Prop :=
  isnan m = false /\ (m <=? g0)%float = true /\
  forall d, In d l -> isnan d = false -> (m <=? d)%float = true.

Definition above_all (g0 : float) (l : list float) (m : float) : Prop :=
  isnan m = false /\ (g0 <=? m)%float = true /\
  forall d, In d l -> isnan d = false -> (d <=? m)%float = true.

(** A kernel that fails on every pair. *)
Definition nan_distance (ra1 dec1 ra2 dec2 : float) : float := nan.

(* ================================================================= *)
(** * The rest of [main]: options, the loading loop, the report

    [getopt], [fgets], [strtok], [atoi] and [atof] belong to the C
    library.  [getopt] is represented by the options it returns, [fgets]
    and [strtok] by the lines and the tokens their successive calls
    deliver; [atoi] and [atof] are parameters. *)

Import (notations) Ascii String.
Abbreviation ascii := Ascii.ascii.

Definition newline : ascii := "010"%char.
Definition space : ascii := " "%char.
Definition NUL : ascii := "000"%char.

Definition MAX_LINE : nat := 1024.

(** The lines that the calls [fgets(line, 1024, fp)] of the [while] loop
    deliver on the file content [fp]: each call takes bytes up to and
    including a newline, at most [1023] of them.  [room] is the number of
    bytes the line being read can still take. *)
Fixpoint fgets_from (room : nat) (fp : list ascii) : list (list ascii) :=
  match fp with
  | [] => []
  | c :: rest =>
      if Ascii.eqb c newline then [c] :: fgets_from (MAX_LINE - 1) rest
      else
        match room with
        | O | S O => [c] :: fgets_from (MAX_LINE - 1) rest
        | S room' =>
            match fgets_from room' rest with
            | [] => [[c]]
            | l :: ls => (c :: l) :: ls
            end
        end
  end.

Definition fgets_lines (fp : list ascii) : list (list ascii) :=
  fgets_from (MAX_LINE - 1) fp.

(** The string a buffer holds: its bytes before the first NUL. *)
Fixpoint c_string (buf : list ascii) : list ascii :=
  match buf with
  | [] => []
  | c :: rest => if Ascii.eqb c NUL then [] else c :: c_string rest
  end.

Definition cons_token (t : list ascii) (ts : list (list ascii))
  : list (list ascii) :=
  match t with [] => ts | _ => t :: ts end.

(** [split_tokens s]: the bytes of [s] before its first space, and the
    tokens after that space. *)
Fixpoint split_tokens (s : list ascii) : list ascii * list (list ascii) :=
  match s with
  | [] => ([], [])
  | c :: rest =>
      let r := split_tokens rest in
      if Ascii.eqb c space then ([], cons_token (fst r) (snd r))
      else (c :: fst r, snd r)
  end.

(** The tokens that [strtok(line, " ")] and the calls [strtok(NULL, " ")]
    after it return, in order: the maximal runs of bytes other than a
    space.  None is empty, so that the test [tok && *tok] of the loop
    fails exactly when [strtok] returns [NULL]. *)
Definition strtok_tokens (s : list ascii) : list (list ascii) :=
  cons_token (fst (split_tokens s)) (snd (split_tokens s)).

(** What the loading loop can run into: the [default] case of the
    [switch], which prints the line number and exits, and a write to
    [star_array[star_count]] with [star_count] past the last slot, for
    which the loop has no test. *)
Inductive LoadError : Set :=
| TooManyColumns (line : Z)
| PastTheEnd.

(** The options [getopt(argc, argv, "t:h")] returns until it returns
    [-1]: ['t'] with its argument, ['h'], or anything else (['?']). *)
Inductive GetOpt : Set :=
| opt_t (optarg : list ascii)
| opt_h
| opt_other.

(** What [main] prints, one constructor for each [printf] with its
    arguments; [Help] stands for the four lines of [showHelp]. *)
Inductive Printed : Set :=
| Help
| MutexInitFailed
| UnableToOpen
| MoreThan3Columns (line : Z)
| RecordsRead (star_count : Z)
| AverageDistance (x : float)
| MinimumDistance (x : float)
| MaximumDistance (x : float)
| TimeTaken.

(** How [main] ends: an exit status with the output, or undefined
    behaviour (a write past [star_array], a division by zero). *)
Inductive Outcome : Set :=
| Exit (status : Z) (out : list Printed)
| Undefined (out : list Printed).

Section Main.

Variable atoi : list ascii -> Z.
Variable atof : list ascii -> float.

(** The [switch] on [column], lines 208-226, on the slot
    [star_array[star_count]]. *)
Definition store_column (star_array : list Star) (star_count column : Z)
    (tok : list ascii) : LoadError + list Star :=
  if 2 <? column then inl (TooManyColumns star_count)
  else
    match nth_error star_array (Z.to_nat star_count) with
    | None => inl PastTheEnd
    | Some s =>
        inr (store (Z.to_nat star_count)
               (if column =? 0
                then mkStar (atoi tok) (RightAscension s) (Declination s)
                else if column =? 1
                then mkStar (ID s) (atof tok) (Declination s)
                else mkStar (ID s) (RightAscension s) (atof tok))
               star_array)
    end.

(** The [for] loop over the tokens of one line, lines 204-228. *)
Fixpoint read_columns (toks : list (list ascii)) (column : Z)
    (star_array : list Star) (star_count : Z) : LoadError + list Star :=
  match toks with
  | [] => inr star_array
  | tok :: rest =>
      match store_column star_array star_count column tok with
      | inl e => inl e
      | inr a => read_columns rest (uint32 (column + 1)) a star_count
      end
  end.

(** The [while] loop over the lines, lines 199-230. *)
Fixpoint read_lines (lines : list (list ascii)) (star_array : list Star)
    (star_count : Z) : LoadError + (list Star * Z) :=
  match lines with
  | [] => inr (star_array, star_count)
  | line :: rest =>
      match read_columns (strtok_tokens (c_string line)) 0
              star_array star_count with
      | inl e => inl e
      | inr a => read_lines rest a (uint32 (star_count + 1))
      end
  end.

(** The loading of a file into the zero-initialised [star_array] of [n]
    slots: the array and [star_count] at the end of the file. *)
Definition read_stars (n : Z) (fp : list ascii)
  : LoadError + (list Star * Z) :=
  read_lines (fgets_lines fp) (repeat zero_star (Z.to_nat n)) 0.

(** The record a line leaves in its slot: the first three tokens, zero
    for a token that is missing. *)
Definition line_record (line : list ascii) : Star :=
  match strtok_tokens (c_string line) with
  | [] => mkStar 0 0%float 0%float
  | [a] => mkStar (atoi a) 0%float 0%float
  | [a; b] => mkStar (atoi a) (atof b) 0%float
  | a :: b :: c :: _ => mkStar (atoi a) (atof b) (atof c)
  end.

(** The number of columns of a line. *)
Definition columns (line : list ascii) : nat :=
  length (strtok_tokens (c_string line)).

(** The [while] loop over [getopt], lines 163-177, from the current
    value of [num_threads]: the exit status after [showHelp], or
    [num_threads] at the end of the options. *)
Fixpoint parse_options (opts : list GetOpt) (num_threads : Z) : Z + Z :=
  match opts with
  | [] => inr num_threads
  | opt_t optarg :: rest => parse_options rest (atoi optarg)
  | opt_h :: _ => inl 0
  | opt_other :: _ => inl 1
  end.

(** [main]: the options, the mutex, the file, the loading loop, the call
    of the engine on [star_array] and the report.  [mutex_init_ok] says
    whether [pthread_mutex_init] returned 0, [file] is the content of
    [data/tycho-trimmed.csv] when [fopen] succeeds. *)
Definition main (kernel : float -> float -> float -> float -> float)
    (sched : list nat) (opts : list GetOpt) (mutex_init_ok : bool)
    (file : option (list ascii)) : Outcome :=
  match parse_options opts 1 with
  | inl status => Exit status [Help]
  | inr num_threads =>
      if negb mutex_init_ok then Exit 1 [MutexInitFailed]
      else
        match file with
        | None => Exit 1 [UnableToOpen]
        | Some fp =>
            match read_stars NUM_STARS fp with
            | inl (TooManyColumns line) => Exit 1 [MoreThan3Columns line]
            | inl PastTheEnd => Undefined []
            | inr (star_array, star_count) =>
                match determineAverageAngularDistance_sched kernel NUM_STARS
                        sched star_array num_threads initial_globals with
                | None => Undefined [RecordsRead star_count]
                | Some (_, g) =>
                    Exit 0 [RecordsRead star_count;
                            AverageDistance (g_mean g);
                            MinimumDistance (g_min g);
                            MaximumDistance (g_max g);
                            TimeTaken]
                end
            end
        end
  end.

End Main.

(** Readers to run the loader on: the values [atoi] and [atof] give to
    an unsigned decimal numeral without fraction, whatever follows its
    digits. *)
Definition digit_value (c : ascii) : option Z :=
  let k := Z.of_N (Ascii.N_of_ascii c) - 48 in
  if (0 <=? k) && (k <=? 9) then Some k else None.

Fixpoint read_digits (acc : Z) (s : list ascii) : Z :=
  match s with
  | [] => acc
  | c :: rest =>
      match digit_value c with
      | Some d => read_digits (10 * acc + d) rest
      | None => acc
      end
  end.

Definition atoi_digits (s : list ascii) : Z := read_digits 0 s.
Definition atof_digits (s : list ascii) : float := of_uint64 (read_digits 0 s).

Definition bytes (s : String.string) : list ascii :=
  String.list_ascii_of_string s.

(** A catalogue file of three lines, and the same with a space before
    the first newline. *)
Definition file3 : list ascii :=
  bytes "1 0 0" ++ [newline] ++ bytes "2 0 45" ++ [newline]
  ++ bytes "3 0 90" ++ [newline].

Definition file3_trailing_space : list ascii :=
  bytes "1 0 0 " ++ [newline] ++ bytes "2 0 45" ++ [newline].

(** What [fgets] guarantees of a line it delivers into a buffer with
    room for [room] bytes: one byte at least, [room] at most, and no
    byte after a newline. *)
Definition line_within (room : nat) (l : list ascii) : Prop :=
  l <> [] /\ (length l <= room)%nat /\
  forall a b, l = a ++ newline :: b -> b = [].

(** A line that did not stop at the end of the file: the buffer is full
    or the line ends with a newline. *)
Definition line_complete (room : nat) (l : list ascii) : Prop :=
  length l = room \/ exists a, l = a ++ [newline].

(** A field of a catalogue line: one byte at least, none of them a
    space, a newline or a NUL. *)
Definition field (t : list ascii) : bool :=
  match t with
  | [] => false
  | _ =>
      forallb (fun c => negb (Ascii.eqb c space || Ascii.eqb c newline
                              || Ascii.eqb c NUL)) t
  end.

(** A catalogue line of three fields separated by one space each and
    ended by a newline, and what makes it a line as the loader expects
    it: three fields that fit the line buffer. *)
Definition row_line (r : list ascii * list ascii * list ascii) : list ascii :=
  fst (fst r) ++ space :: snd (fst r) ++ space :: snd r ++ [newline].

Definition row_ok (r : list ascii * list ascii * list ascii) : bool :=
  field (fst (fst r)) && field (snd (fst r)) && field (snd r)
  && (length (row_line r) <=? MAX_LINE - 1)%nat.

(** The same line with a space before the newline. *)
Definition row_line_trailing_space
    (r : list ascii * list ascii * list ascii) : list ascii :=
  fst (fst r) ++ space :: snd (fst r) ++ space :: snd r ++ [space; newline].

(** The record the loader makes of a row: the last field reaches [atof]
    with the newline of its line. *)
Definition row_star (atoi : list ascii -> Z) (atof : list ascii -> float)
    (r : list ascii * list ascii * list ascii) : Star :=
  mkStar (atoi (fst (fst r))) (atof (snd (fst r))) (atof (snd r ++ [newline])).

(** The options that end the option loop. *)
Definition ends_options (o : GetOpt) : bool :=
  match o with opt_t _ => false | _ => true end.

(** The thread count an option asks for, [d] when it asks for none. *)
Definition thread_count_of (atoi : list ascii -> Z) (d : Z) (o : GetOpt) : Z :=
  match o with opt_t optarg => atoi optarg | _ => d end.

Definition rows3 : list (list ascii * list ascii * list ascii) :=
  [(bytes "1", bytes "0", bytes "0"); (bytes "2", bytes "0", bytes "45");
   (bytes "3", bytes "0", bytes "90")].

(* ================================================================= *)
(** * Ranges *)

Lemma range_nil lo hi : hi <= lo -> range lo hi = [].
Proof.
  intros H. unfold range. replace (Z.to_nat (hi - lo)) with O by lia.
  reflexivity.
Qed.

Lemma range_cons lo hi : lo < hi -> range lo hi = lo :: range (lo + 1) hi.
Proof.
  intros H. unfold range.
  replace (Z.to_nat (hi - lo)) with (S (Z.to_nat (hi - (lo + 1)))) by lia.
  simpl. f_equal; [lia |].
  rewrite <- seq_shift, map_map. apply map_ext. intros k. lia.
Qed.

Lemma range_app lo mid hi :
  lo <= mid <= hi -> range lo hi = range lo mid ++ range mid hi.
Proof.
  intros H. unfold range.
  replace (Z.to_nat (hi - lo))
    with (Z.to_nat (mid - lo) + Z.to_nat (hi - mid))%nat by lia.
  rewrite seq_app, map_app. f_equal. simpl.
  rewrite <- (Nat.add_0_r (Z.to_nat (mid - lo))) at 1.
  generalize (Z.to_nat (hi - mid)) as m. intros m.
  replace (seq (Z.to_nat (mid - lo) + 0) m)
    with (map (fun k => (Z.to_nat (mid - lo) + k)%nat) (seq 0 m)).
  - rewrite map_map. apply map_ext. intros k. lia.
  - clear. generalize (Z.to_nat (mid - lo)) as a. intros a.
    generalize 0%nat as s. induction m as [|m IH]; intros s; simpl.
    + reflexivity.
    + f_equal. rewrite IH. f_equal. f_equal. lia.
Qed.

Lemma range_snoc lo hi : lo <= hi -> range lo (hi + 1) = range lo hi ++ [hi].
Proof.
  intros H. rewrite (range_app lo hi (hi + 1)) by lia. f_equal.
  rewrite range_cons by lia. rewrite range_nil by lia. reflexivity.
Qed.

Lemma in_range lo hi x : In x (range lo hi) <-> lo <= x < hi.
Proof.
  unfold range. rewrite in_map_iff. split.
  - intros (k & <- & Hk). apply in_seq in Hk. lia.
  - intros H. exists (Z.to_nat (x - lo)). split; [lia |].
    apply in_seq. lia.
Qed.

Lemma length_range lo hi : length (range lo hi) = Z.to_nat (hi - lo).
Proof. unfold range. rewrite length_map, length_seq. reflexivity. Qed.

Lemma NoDup_range lo hi : NoDup (range lo hi).
Proof.
  unfold range. apply Finite.Injective_map_NoDup; [| apply seq_NoDup].
  intros a b. lia.
Qed.

Lemma uint32_small z : 0 <= z <= INT_MAX -> uint32 z = z.
Proof. intros H. unfold uint32, INT_MAX in *. apply Z.mod_small. lia. Qed.

(* ================================================================= *)
(** * The scan of one thread *)

Section Scan.

Variable kernel : float -> float -> float -> float -> float.
Variable n : Z.

Lemma fold_left_flat_map {A B S : Type} (f : S -> B -> S) (g : A -> list B)
    (l : list A) (s : S) :
  fold_left f (flat_map g l) s = fold_left (fun s a => fold_left f (g a) s) l s.
Proof.
  revert s. induction l as [|a l IH]; intros s; simpl.
  - reflexivity.
  - rewrite fold_left_app. apply IH.
Qed.

Lemma fold_left_through_map {A B S : Type} (f : S -> B -> S) (g : A -> B)
    (l : list A) (s : S) :
  fold_left f (map g l) s = fold_left (fun s a => f s (g a)) l s.
Proof.
  revert s. induction l as [|a l IH]; intros s; simpl; [reflexivity | apply IH].
Qed.

(** The nested loops are one pass over [thread_pairs]. *)
Lemma outer_loop_pairs arr start end_ :
  outer_loop kernel n arr start end_ =
  fold_left (pair_body kernel arr) (thread_pairs n start end_) initial_locals.
Proof.
  unfold outer_loop, thread_pairs. rewrite fold_left_flat_map.
  generalize initial_locals as st.
  induction (range (uint32 start) (uint32 end_)) as [|i l IH]; intros st; simpl.
  - reflexivity.
  - rewrite <- IH. f_equal. unfold inner_loop. rewrite fold_left_through_map.
    reflexivity.
Qed.

Lemma scan_sum arr ps st : l_sum (fold_left (pair_body kernel arr) ps st) = l_sum st.
Proof.
  revert st. induction ps as [|p ps IH]; intros st; simpl; [reflexivity |].
  rewrite IH. reflexivity.
Qed.

Lemma scan_count arr ps st :
  l_count (fold_left (pair_body kernel arr) ps st) =
  uint64 (uint64 (l_count st) + Z.of_nat (length ps)) \/ ps = [].
Proof.
  destruct ps as [|p ps]; [right; reflexivity | left].
  revert p st. induction ps as [|q ps IH]; intros p st.
  - simpl. unfold uint64. rewrite Zplus_mod_idemp_l. reflexivity.
  - change (fold_left (pair_body kernel arr) (p :: q :: ps) st)
      with (fold_left (pair_body kernel arr) (q :: ps) (pair_body kernel arr st p)).
    rewrite IH. simpl l_count. unfold uint64.
    rewrite Z.mod_mod by lia. rewrite !Zplus_mod_idemp_l.
    f_equal. simpl length. lia.
Qed.

Lemma scan_count0 arr ps :
  l_count (fold_left (pair_body kernel arr) ps initial_locals) =
  uint64 (Z.of_nat (length ps)).
Proof.
  destruct (scan_count arr ps initial_locals) as [H | ->]; [| reflexivity].
  rewrite H. reflexivity.
Qed.

Lemma scan_min arr ps st :
  l_min (fold_left (pair_body kernel arr) ps st) =
  fold_left lower (map (pair_distance kernel arr) ps) (l_min st).
Proof.
  revert st. induction ps as [|p ps IH]; intros st; simpl; [reflexivity |].
  rewrite IH. reflexivity.
Qed.

Lemma scan_max arr ps st :
  l_max (fold_left (pair_body kernel arr) ps st) =
  fold_left raise (map (pair_distance kernel arr) ps) (l_max st).
Proof.
  revert st. induction ps as [|p ps IH]; intros st; simpl; [reflexivity |].
  rewrite IH. reflexivity.
Qed.

End Scan.

(* ================================================================= *)
(** * The partition *)

Section Partition.

Variable n : Z.

Lemma blocks_cover (w : Z) (m : nat) :
  0 <= w ->
  concat (map (fun i => range (i * w) ((i + 1) * w)) (range 0 (Z.of_nat m))) =
  range 0 (Z.of_nat m * w).
Proof.
  intros Hw. induction m as [|m IH].
  - reflexivity.
  - replace (Z.of_nat (S m)) with (Z.of_nat m + 1) by lia.
    rewrite range_snoc by lia. rewrite map_app, concat_app, IH. simpl.
    rewrite app_nil_r. symmetry. apply range_app. nia.
Qed.

Lemma quot_bounds (num_threads : Z) :
  0 <= n -> 1 <= num_threads ->
  Z.quot n num_threads = n / num_threads /\
  0 <= n / num_threads /\
  num_threads * (n / num_threads) <= n.
Proof.
  intros Hn HT. split; [apply Z.quot_div_nonneg; lia |].
  split; [apply Z.div_pos; lia | apply Z.mul_div_le; lia].
Qed.

Lemma segments_split arr num_threads :
  0 <= n -> 1 <= num_threads ->
  segments n arr num_threads =
  map (fun i => mkThreadData (i * (n / num_threads)) ((i + 1) * (n / num_threads))
                 arr 0%float 0)
      (range 0 (num_threads - 1))
  ++ [mkThreadData ((num_threads - 1) * (n / num_threads)) n arr 0%float 0].
Proof.
  intros Hn HT. unfold segments.
  destruct (quot_bounds num_threads Hn HT) as (-> & _ & _).
  replace num_threads with (num_threads - 1 + 1) at 3 by lia.
  rewrite range_snoc by lia. rewrite map_app. f_equal.
  - apply map_ext_in. intros i Hi. apply in_range in Hi.
    unfold make_data. replace (i =? num_threads - 1) with false; [reflexivity |].
    symmetry. apply Z.eqb_neq. lia.
  - simpl. unfold make_data. rewrite Z.eqb_refl. reflexivity.
Qed.

Lemma length_segments arr num_threads :
  length (segments n arr num_threads) = Z.to_nat num_threads.
Proof.
  unfold segments. rewrite length_map, length_range. f_equal. lia.
Qed.

(** Every segment lies inside [0, n]. *)
Lemma segment_bounds arr num_threads d :
  0 <= n -> 1 <= num_threads -> In d (segments n arr num_threads) ->
  0 <= td_start d <= td_end d /\ td_end d <= n.
Proof.
  intros Hn HT Hd. rewrite segments_split in Hd by assumption.
  destruct (quot_bounds num_threads Hn HT) as (_ & Hq & Hm).
  apply in_app_or in Hd. destruct Hd as [Hd | [<- | []]].
  - apply in_map_iff in Hd. destruct Hd as (i & <- & Hi).
    apply in_range in Hi. simpl. nia.
  - simpl. nia.
Qed.

(** The segments, in order, enumerate [0, 1, ..., n - 1]: every index
    lies in exactly one of them. *)
Lemma segments_cover arr num_threads :
  0 <= n -> 1 <= num_threads ->
  concat (map segment_range (segments n arr num_threads)) = range 0 n.
Proof.
  intros Hn HT. rewrite segments_split by assumption.
  destruct (quot_bounds num_threads Hn HT) as (_ & Hq & Hm).
  rewrite map_app, concat_app, map_map. simpl. rewrite app_nil_r.
  unfold segment_range at 1 2. simpl.
  replace (num_threads - 1) with (Z.of_nat (Z.to_nat (num_threads - 1))) at 1 by lia.
  rewrite blocks_cover by assumption.
  rewrite Z2Nat.id by lia. symmetry. apply range_app. nia.
Qed.

End Partition.

(* ================================================================= *)
(** * Least and greatest elements under the comparisons of C *)

Lemma lower_fold l m0 :
  isnan m0 = false -> least_from m0 l (fold_left lower l m0).
Proof.
  revert m0. induction l as [|d l IH]; intros m0 H0; simpl.
  - repeat split; auto using leb_refl; try (intros d []).
  - unfold lower at 2. destruct (d <? m0)%float eqn:E.
    + destruct (ltb_isnan _ _ E) as [Hd _].
      destruct (IH d Hd) as (Hm & Hin & Hle & Hall).
      repeat split; trivial.
      * destruct Hin as [-> | Hin]; [right; left; reflexivity | right; right; exact Hin].
      * eapply leb_trans; [exact Hle | apply ltb_leb; exact E].
      * intros x [<- | Hx] Hn; [exact Hle | apply Hall; assumption].
    + destruct (IH m0 H0) as (Hm & Hin & Hle & Hall).
      repeat split; trivial.
      * destruct Hin as [-> | Hin]; [left; reflexivity | right; right; exact Hin].
      * intros x [<- | Hx] Hn; [| apply Hall; assumption].
        apply leb_trans with m0; [exact Hle | apply not_ltb_leb; assumption].
Qed.

Lemma raise_fold l m0 :
  isnan m0 = false -> greatest_from m0 l (fold_left raise l m0).
Proof.
  revert m0. induction l as [|d l IH]; intros m0 H0; simpl.
  - repeat split; auto using leb_refl; try (intros d []).
  - unfold raise at 2. destruct (m0 <? d)%float eqn:E.
    + destruct (ltb_isnan _ _ E) as [_ Hd].
      destruct (IH d Hd) as (Hm & Hin & Hle & Hall).
      repeat split; trivial.
      * destruct Hin as [-> | Hin]; [right; left; reflexivity | right; right; exact Hin].
      * eapply leb_trans; [apply ltb_leb; exact E | exact Hle].
      * intros x [<- | Hx] Hn; [exact Hle | apply Hall; assumption].
    + destruct (IH m0 H0) as (Hm & Hin & Hle & Hall).
      repeat split; trivial.
      * destruct Hin as [-> | Hin]; [left; reflexivity | right; right; exact Hin].
      * intros x [<- | Hx] Hn; [| apply Hall; assumption].
        apply leb_trans with m0; [apply not_ltb_leb; assumption | exact Hle].
Qed.

(** Reducing per-segment minima gives a least element of the whole. *)
Lemma least_from_merge m0 (parts : list (list float)) (mins : list float) m :
  (forall x, In x mins -> exists p, In p parts /\ least_from m0 p x) ->
  (forall p, In p parts -> exists x, In x mins /\ least_from m0 p x) ->
  least_from m0 mins m ->
  least_from m0 (concat parts) m.
Proof.
  intros Hmins Hparts (Hm & Hin & Hle & Hall). repeat split; trivial.
  - destruct Hin as [-> | Hin]; [left; reflexivity |].
    destruct (Hmins m Hin) as (p & Hp & _ & [-> | Hmp] & _);
      [left; reflexivity | right].
    apply in_concat. exists p. split; assumption.
  - intros d Hd Hn. apply in_concat in Hd. destruct Hd as (p & Hp & Hd).
    destruct (Hparts p Hp) as (x & Hx & Hxn & _ & _ & Hxall).
    eapply leb_trans; [apply Hall; eassumption | apply Hxall; assumption].
Qed.

Lemma greatest_from_merge m0 (parts : list (list float)) (maxs : list float) m :
  (forall x, In x maxs -> exists p, In p parts /\ greatest_from m0 p x) ->
  (forall p, In p parts -> exists x, In x maxs /\ greatest_from m0 p x) ->
  greatest_from m0 maxs m ->
  greatest_from m0 (concat parts) m.
Proof.
  intros Hmaxs Hparts (Hm & Hin & Hle & Hall). repeat split; trivial.
  - destruct Hin as [-> | Hin]; [left; reflexivity |].
    destruct (Hmaxs m Hin) as (p & Hp & _ & [-> | Hmp] & _);
      [left; reflexivity | right].
    apply in_concat. exists p. split; assumption.
  - intros d Hd Hn. apply in_concat in Hd. destruct Hd as (p & Hp & Hd).
    destruct (Hparts p Hp) as (x & Hx & Hxn & _ & _ & Hxall).
    eapply leb_trans; [apply Hxall; assumption | apply Hall; eassumption].
Qed.

(** Two least elements of one list compare equal. *)
Lemma least_from_unique m0 l a b :
  least_from m0 l a -> least_from m0 l b -> (a =? b)%float = true.
Proof.
  intros (Ha & Hain & Hale & Haall) (Hb & Hbin & Hble & Hball).
  apply leb_antisym.
  - destruct Hbin as [-> | Hbin]; [exact Hale | apply Haall; assumption].
  - destruct Hain as [-> | Hain]; [exact Hble | apply Hball; assumption].
Qed.

Lemma greatest_from_unique m0 l a b :
  greatest_from m0 l a -> greatest_from m0 l b -> (a =? b)%float = true.
Proof.
  intros (Ha & Hain & Hale & Haall) (Hb & Hbin & Hble & Hball).
  apply leb_antisym.
  - destruct Hain as [-> | Hain]; [exact Hble | apply Hball; assumption].
  - destruct Hbin as [-> | Hbin]; [exact Hale | apply Haall; assumption].
Qed.

(* ================================================================= *)
(** * Threads and schedules *)

Lemma nth_error_store {A : Type} (k : nat) (x : A) (l : list A) (j : nat) :
  nth_error (store k x l) j =
  if Nat.eqb j k
  then match nth_error l k with Some _ => Some x | None => None end
  else nth_error l j.
Proof.
  revert k j. induction l as [|h t IH]; intros k j.
  - simpl. destruct (Nat.eqb j k), j, k; reflexivity.
  - destruct k as [|k], j as [|j]; simpl; try reflexivity. apply IH.
Qed.

Section Threads.

Variable kernel : float -> float -> float -> float -> float.
Variable n : Z.

Lemma thread_eq d g :
  determineAverageAngularDistanceThread kernel n d g =
  (scanned kernel n d, publish g (local_of kernel n d)).
Proof. reflexivity. Qed.

Lemma in_selected sched data o :
  In o (selected sched data) <->
  exists k, In k sched /\ nth_error data k = Some o.
Proof.
  unfold selected. rewrite in_flat_map. split.
  - intros (k & Hk & Ho). exists k. split; [exact Hk |].
    destruct (nth_error data k); [destruct Ho as [-> | []]; reflexivity | destruct Ho].
  - intros (k & Hk & Ho). exists k. split; [exact Hk |].
    rewrite Ho. left; reflexivity.
Qed.

(** Running a schedule: every scheduled slot of [data] ends up scanned,
    and the globals have absorbed the locals of the scheduled threads. *)
Lemma run_schedule (data : list ThreadData) (sched : list nat) :
  forall (cur : list ThreadData) (g : Globals) (done : nat -> bool),
  (forall j, nth_error cur j =
             option_map (fun o => if done j then scanned kernel n o else o)
               (nth_error data j)) ->
  (forall j, nth_error (fst (fold_left (run_thread kernel n) sched (cur, g))) j =
             option_map
               (fun o => if done j || existsb (Nat.eqb j) sched
                         then scanned kernel n o else o)
               (nth_error data j)) /\
  snd (fold_left (run_thread kernel n) sched (cur, g)) =
  fold_left publish (map (local_of kernel n) (selected sched data)) g.
Proof.
  induction sched as [|k sched IH]; intros cur g done Hcur.
  - simpl. split; [| reflexivity].
    intros j. rewrite Hcur, orb_false_r. reflexivity.
  - cbn [fold_left]. unfold run_thread at 2 4. cbn [fst snd].
    pose proof (Hcur k) as Hk.
    destruct (nth_error data k) as [o|] eqn:Eo.
    + simpl in Hk. rewrite Hk, thread_eq. cbn [fst snd].
      assert (Hloc : local_of kernel n (if done k then scanned kernel n o else o)
                     = local_of kernel n o)
        by (destruct (done k); reflexivity).
      assert (Hsc : scanned kernel n (if done k then scanned kernel n o else o)
                    = scanned kernel n o)
        by (destruct (done k); reflexivity).
      rewrite Hloc, Hsc.
      destruct (IH (store k (scanned kernel n o) cur) (publish g (local_of kernel n o))
                  (fun j => done j || Nat.eqb j k)) as [IH1 IH2].
      { intros j. rewrite nth_error_store.
        destruct (Nat.eqb j k) eqn:Ejk.
        - apply Nat.eqb_eq in Ejk. subst j. rewrite Hk, Eo. simpl.
          rewrite orb_true_r. reflexivity.
        - rewrite Hcur, orb_false_r. reflexivity. }
      split.
      * intros j. rewrite IH1. simpl existsb. rewrite orb_assoc. reflexivity.
      * rewrite IH2. unfold selected. simpl. rewrite Eo. reflexivity.
    + simpl in Hk. rewrite Hk.
      destruct (IH cur g done Hcur) as [IH1 IH2]. split.
      * intros j. rewrite IH1. simpl existsb.
        destruct (Nat.eqb j k) eqn:Ejk; [| reflexivity].
        apply Nat.eqb_eq in Ejk. subst j. rewrite Eo. reflexivity.
      * rewrite IH2. unfold selected. simpl. rewrite Eo. reflexivity.
Qed.

(** A schedule that runs every thread leaves [data] fully scanned. *)
Lemma run_schedule_all (data : list ThreadData) (sched : list nat) (g : Globals) :
  (forall k, (k < length data)%nat -> In k sched) ->
  fold_left (run_thread kernel n) sched (data, g) =
  (map (scanned kernel n) data,
   fold_left publish (map (local_of kernel n) (selected sched data)) g).
Proof.
  intros Hall.
  destruct (run_schedule data sched data g (fun _ => false)) as [H1 H2].
  { intros j. destruct (nth_error data j); reflexivity. }
  destruct (fold_left (run_thread kernel n) sched (data, g)) as [cur g'].
  simpl in *. f_equal; [| exact H2].
  apply nth_error_ext. intros j. rewrite H1, nth_error_map.
  destruct (nth_error data j) as [o|] eqn:Eo; [| reflexivity]. simpl.
  assert (Hj : (j < length data)%nat) by (apply nth_error_Some; congruence).
  replace (existsb (Nat.eqb j) sched) with true; [reflexivity |].
  symmetry. apply existsb_exists. exists j. split; [auto | apply Nat.eqb_refl].
Qed.

Lemma publish_min locs g :
  g_min (fold_left publish locs g) = fold_left lower (map l_min locs) (g_min g).
Proof.
  revert g. induction locs as [|st locs IH]; intros g; simpl; [reflexivity |].
  rewrite IH. reflexivity.
Qed.

Lemma publish_max locs g :
  g_max (fold_left publish locs g) = fold_left raise (map l_max locs) (g_max g).
Proof.
  revert g. induction locs as [|st locs IH]; intros g; simpl; [reflexivity |].
  rewrite IH. reflexivity.
Qed.

(** ** What a thread writes back *)

Lemma scanned_sum d : td_sum (scanned kernel n d) = 0%float.
Proof.
  unfold scanned, local_of. simpl. rewrite outer_loop_pairs, scan_sum.
  reflexivity.
Qed.

Lemma scanned_count d :
  td_count (scanned kernel n d) =
  uint64 (Z.of_nat (length (thread_pairs n (td_start d) (td_end d)))).
Proof.
  unfold scanned, local_of. simpl. rewrite outer_loop_pairs. apply scan_count0.
Qed.

Lemma total_sum_zero (data : list ThreadData) :
  (forall d, In d data -> td_sum d = 0%float) -> total_sum data = 0%float.
Proof.
  unfold total_sum. induction data as [|d data IH]; intros H; simpl.
  - reflexivity.
  - rewrite (H d) by (left; reflexivity).
    change (0 + 0)%float with 0%float. apply IH.
    intros d' Hd'. apply H. right; exact Hd'.
Qed.

Lemma total_count_sum (data : list ThreadData) (c : Z) :
  fold_left (fun c d => uint64 (c + td_count d)) data (uint64 c) =
  uint64 (c + fold_right Z.add 0 (map td_count data)).
Proof.
  revert c. induction data as [|d data IH]; intros c;
    cbn [fold_left map fold_right].
  - rewrite Z.add_0_r. reflexivity.
  - replace (uint64 (uint64 c + td_count d)) with (uint64 (c + td_count d))
      by (unfold uint64; rewrite Zplus_mod_idemp_l; reflexivity).
    rewrite IH. f_equal. lia.
Qed.

End Threads.

(* ================================================================= *)
(** * The pairs the threads visit *)

Section Coverage.

Variable n : Z.

Lemma all_pairs_eq : all_pairs n = flat_map (pairs_from n) (range 0 n).
Proof. reflexivity. Qed.

Lemma flat_map_ext_in {A B : Type} (f g : A -> list B) (l : list A) :
  (forall a, In a l -> f a = g a) -> flat_map f l = flat_map g l.
Proof.
  intros H. rewrite !flat_map_concat_map. f_equal. apply map_ext_in. exact H.
Qed.

Lemma flat_map_concat {A B : Type} (f : A -> list B) (ls : list (list A)) :
  flat_map f (concat ls) = concat (map (flat_map f) ls).
Proof.
  induction ls as [|l ls IH]; simpl; [reflexivity |].
  rewrite flat_map_app, IH. reflexivity.
Qed.

(** Inside [0, n], with [n <= INT_MAX], the unsigned conversions of the
    loop bounds change nothing. *)
Lemma thread_pairs_small (s e : Z) :
  0 <= n <= INT_MAX -> 0 <= s <= e -> e <= n ->
  thread_pairs n s e = flat_map (pairs_from n) (range s e).
Proof.
  intros Hn Hs He. unfold thread_pairs.
  rewrite (uint32_small s), (uint32_small e) by lia.
  apply flat_map_ext_in. intros i Hi. apply in_range in Hi.
  unfold pairs_from. rewrite (uint32_small (i + 1)), (uint32_small n) by lia.
  reflexivity.
Qed.

(** The pairs visited by the threads, segment after segment, are the
    unique pairs of [0 .. n-1], each once. *)
Lemma pairs_cover (arr : list Star) (num_threads : Z) :
  0 <= n <= INT_MAX -> 1 <= num_threads ->
  concat (map (fun d => thread_pairs n (td_start d) (td_end d))
            (segments n arr num_threads)) =
  all_pairs n.
Proof.
  intros Hn HT.
  rewrite (map_ext_in _ (fun d => flat_map (pairs_from n) (segment_range d))).
  - rewrite <- (map_map segment_range (flat_map (pairs_from n))).
    rewrite <- flat_map_concat, segments_cover by lia. reflexivity.
  - intros d Hd.
    destruct (segment_bounds n arr num_threads d) as [? ?]; [lia | lia | exact Hd |].
    apply thread_pairs_small; lia.
Qed.

Lemma in_pairs_from i p : In p (pairs_from n i) <-> fst p = i /\ i < snd p < n.
Proof.
  unfold pairs_from. rewrite in_map_iff. split.
  - intros (j & <- & Hj). apply in_range in Hj. simpl. lia.
  - intros [Hi Hj]. exists (snd p). split.
    + destruct p; simpl in *; subst; reflexivity.
    + apply in_range. lia.
Qed.

Lemma in_all_pairs (p : Z * Z) :
  In p (all_pairs n) <-> 0 <= fst p < snd p /\ snd p < n.
Proof.
  rewrite all_pairs_eq, in_flat_map. split.
  - intros (i & Hi & Hp). apply in_range in Hi. apply in_pairs_from in Hp. lia.
  - intros H. exists (fst p). split; [apply in_range; lia |].
    apply in_pairs_from. lia.
Qed.

Lemma pairs_suffix (m : nat) :
  forall lo, Z.of_nat m = n - lo ->
  NoDup (flat_map (pairs_from n) (range lo n)) /\
  2 * Z.of_nat (length (flat_map (pairs_from n) (range lo n))) = (n - lo) * (n - lo - 1).
Proof.
  induction m as [|m IH]; intros lo Hm.
  - rewrite range_nil by lia. simpl. split; [constructor | nia].
  - rewrite range_cons by lia. cbn [flat_map].
    destruct (IH (lo + 1)) as [IH1 IH2]; [lia |]. split.
    + apply NoDup_app; [| exact IH1 |].
      * unfold pairs_from. apply Finite.Injective_map_NoDup; [| apply NoDup_range].
        intros a b E. congruence.
      * intros p Hp Hq. apply in_pairs_from in Hp. apply in_flat_map in Hq.
        destruct Hq as (i & Hi & Hq). apply in_range in Hi.
        apply in_pairs_from in Hq. lia.
    + rewrite length_app, Nat2Z.inj_add.
      unfold pairs_from at 1. rewrite length_map, length_range.
      rewrite Z2Nat.id by lia. rewrite Z.mul_add_distr_l, IH2. ring.
Qed.

Lemma NoDup_all_pairs : NoDup (all_pairs n).
Proof.
  rewrite all_pairs_eq. destruct (Z_le_gt_dec 0 n) as [H | H].
  - apply (pairs_suffix (Z.to_nat n) 0). lia.
  - rewrite range_nil by lia. constructor.
Qed.

Lemma length_all_pairs :
  0 <= n -> Z.of_nat (length (all_pairs n)) = n * (n - 1) / 2.
Proof.
  intros H. rewrite all_pairs_eq.
  destruct (pairs_suffix (Z.to_nat n) 0) as [_ E]; [lia |].
  rewrite Z.sub_0_r in E. rewrite <- E.
  rewrite Z.mul_comm, Z.div_mul by lia. reflexivity.
Qed.

Lemma pair_count_bound :
  0 <= n <= INT_MAX -> 0 <= n * (n - 1) / 2 < 2 ^ 64.
Proof.
  intros H. unfold INT_MAX in H. split.
  - apply Z.div_pos; nia.
  - apply Z.div_lt_upper_bound; [lia |].
    assert (n * (n - 1) <= 2147483647 * 2147483647) by nia.
    change (2 ^ 64) with 18446744073709551616. lia.
Qed.

End Coverage.

(* ================================================================= *)
(** * The coordinator *)

Section Coordinator.

Variable kernel : float -> float -> float -> float -> float.
Variable n : Z.

(** The result of a call in which every thread runs. *)
Lemma coordinator_result sched arr num_threads g :
  num_threads <> 0 -> Permutation sched (in_order num_threads) ->
  determineAverageAngularDistance_sched kernel n sched arr num_threads g =
  Some (map (scanned kernel n) (segments n arr num_threads),
        {| g_min := fold_left lower
                      (local_mins kernel n sched (segments n arr num_threads))
                      (g_min g);
           g_max := fold_left raise
                      (local_maxs kernel n sched (segments n arr num_threads))
                      (g_max g);
           g_mean := (total_sum (map (scanned kernel n) (segments n arr num_threads))
                      / of_uint64 (total_count (map (scanned kernel n)
                                                  (segments n arr num_threads))))%float |}).
Proof.
  intros HT Hs. unfold determineAverageAngularDistance_sched.
  replace (num_threads =? 0) with false by (symmetry; apply Z.eqb_neq; exact HT).
  fold (segments n arr num_threads).
  rewrite run_schedule_all.
  - cbn [fst snd]. rewrite publish_min, publish_max. reflexivity.
  - intros k Hk. rewrite length_segments in Hk.
    apply (Permutation_in k (Permutation_sym Hs)). apply in_seq. lia.
Qed.

Lemma selected_all sched (data : list ThreadData) o :
  Permutation sched (seq 0 (length data)) ->
  In o (selected sched data) <-> In o data.
Proof.
  intros Hs. rewrite in_selected. split.
  - intros (k & _ & Hk). eapply nth_error_In; exact Hk.
  - intros Ho. apply In_nth_error in Ho. destruct Ho as (k & Hk).
    exists k. split; [| exact Hk].
    apply (Permutation_in k (Permutation_sym Hs)). apply in_seq.
    assert (k < length data)%nat by (apply nth_error_Some; congruence). lia.
Qed.

Lemma segments_arr arr num_threads d :
  In d (segments n arr num_threads) -> td_arr d = arr.
Proof.
  unfold segments. rewrite in_map_iff. intros (i & <- & _). reflexivity.
Qed.

(** ** Sum and count *)

Lemma total_sum_scanned (data : list ThreadData) :
  total_sum (map (scanned kernel n) data) = 0%float.
Proof.
  apply total_sum_zero. intros d Hd. apply in_map_iff in Hd.
  destruct Hd as (o & <- & _). apply scanned_sum.
Qed.

Lemma length_part_le {A B : Type} (f : A -> list B) (l : list A) (x : A) :
  In x l -> (length (f x) <= length (concat (map f l)))%nat.
Proof.
  induction l as [|a l IH]; intros H; [destruct H |].
  simpl. rewrite length_app. destruct H as [-> | H]; [lia |].
  specialize (IH H). lia.
Qed.

Lemma sum_counts (data : list ThreadData) :
  Z.of_nat (length (concat (map (pairs_of n) data))) < 2 ^ 64 ->
  fold_right Z.add 0 (map td_count (map (scanned kernel n) data)) =
  Z.of_nat (length (concat (map (pairs_of n) data))).
Proof.
  induction data as [|d data IH]; intros Hb; [reflexivity |].
  cbn [map fold_right concat] in *. rewrite length_app in *.
  rewrite IH by lia. rewrite scanned_count. fold (pairs_of n d).
  unfold uint64. rewrite Z.mod_small by lia. lia.
Qed.

Lemma total_count_scanned arr num_threads :
  0 <= n <= INT_MAX -> 1 <= num_threads ->
  total_count (map (scanned kernel n) (segments n arr num_threads)) =
  n * (n - 1) / 2.
Proof.
  intros Hn HT. unfold total_count.
  pose proof (pair_count_bound n Hn) as Hb.
  pose proof (pairs_cover n arr num_threads Hn HT) as Hc.
  fold (pairs_of n) in Hc.
  rewrite (total_count_sum _ 0). rewrite sum_counts.
  - rewrite Hc, length_all_pairs by lia. apply Z.mod_small. exact Hb.
  - rewrite Hc, length_all_pairs by lia. lia.
Qed.

(** ** Minimum and maximum *)

Lemma isnan_DBL_MAX : isnan DBL_MAX = false.
Proof. reflexivity. Qed.

Lemma isnan_zero : isnan 0%float = false.
Proof. reflexivity. Qed.

Lemma local_min_least d :
  least_from DBL_MAX (map (pair_distance kernel (td_arr d)) (pairs_of n d))
    (l_min (local_of kernel n d)).
Proof.
  unfold local_of. rewrite outer_loop_pairs, scan_min.
  apply lower_fold. apply isnan_DBL_MAX.
Qed.

Lemma local_max_greatest d :
  greatest_from 0%float (map (pair_distance kernel (td_arr d)) (pairs_of n d))
    (l_max (local_of kernel n d)).
Proof.
  unfold local_of. rewrite outer_loop_pairs, scan_max.
  apply raise_fold. apply isnan_zero.
Qed.

Lemma distances_by_segment arr num_threads :
  0 <= n <= INT_MAX -> 1 <= num_threads ->
  concat (map (fun d => map (pair_distance kernel arr) (pairs_of n d))
            (segments n arr num_threads)) =
  pair_distances kernel n arr.
Proof.
  intros Hn HT. unfold pair_distances.
  rewrite <- (pairs_cover n arr num_threads Hn HT).
  rewrite concat_map, map_map. reflexivity.
Qed.

(** Whatever the schedule, the global minimum is a least element of
    [DBL_MAX] and the separations of all pairs, and the global maximum a
    greatest element of [0] and these separations. *)
Lemma global_min_least sched arr num_threads :
  0 <= n <= INT_MAX -> 1 <= num_threads ->
  Permutation sched (in_order num_threads) ->
  least_from DBL_MAX (pair_distances kernel n arr)
    (fold_left lower (local_mins kernel n sched (segments n arr num_threads)) DBL_MAX).
Proof.
  intros Hn HT Hs.
  rewrite <- (distances_by_segment arr num_threads Hn HT).
  assert (Hsel : forall o, In o (selected sched (segments n arr num_threads)) <->
                           In o (segments n arr num_threads)).
  { intros o. apply selected_all. rewrite length_segments. exact Hs. }
  apply least_from_merge
    with (mins := local_mins kernel n sched (segments n arr num_threads)).
  - intros x Hx. unfold local_mins in Hx. rewrite map_map in Hx.
    apply in_map_iff in Hx. destruct Hx as (o & <- & Ho). apply Hsel in Ho.
    exists (map (pair_distance kernel arr) (pairs_of n o)). split.
    + apply in_map_iff. exists o. split; [reflexivity | exact Ho].
    + rewrite <- (segments_arr arr num_threads o Ho) at 1.
      apply local_min_least.
  - intros p Hp. apply in_map_iff in Hp. destruct Hp as (o & <- & Ho).
    exists (l_min (local_of kernel n o)). split.
    + unfold local_mins. rewrite map_map. apply in_map_iff.
      exists o. split; [reflexivity | apply Hsel; exact Ho].
    + rewrite <- (segments_arr arr num_threads o Ho) at 1.
      apply local_min_least.
  - apply lower_fold. apply isnan_DBL_MAX.
Qed.

Lemma global_max_greatest sched arr num_threads :
  0 <= n <= INT_MAX -> 1 <= num_threads ->
  Permutation sched (in_order num_threads) ->
  greatest_from 0%float (pair_distances kernel n arr)
    (fold_left raise (local_maxs kernel n sched (segments n arr num_threads)) 0%float).
Proof.
  intros Hn HT Hs.
  rewrite <- (distances_by_segment arr num_threads Hn HT).
  assert (Hsel : forall o, In o (selected sched (segments n arr num_threads)) <->
                           In o (segments n arr num_threads)).
  { intros o. apply selected_all. rewrite length_segments. exact Hs. }
  apply greatest_from_merge
    with (maxs := local_maxs kernel n sched (segments n arr num_threads)).
  - intros x Hx. unfold local_maxs in Hx. rewrite map_map in Hx.
    apply in_map_iff in Hx. destruct Hx as (o & <- & Ho). apply Hsel in Ho.
    exists (map (pair_distance kernel arr) (pairs_of n o)). split.
    + apply in_map_iff. exists o. split; [reflexivity | exact Ho].
    + rewrite <- (segments_arr arr num_threads o Ho) at 1.
      apply local_max_greatest.
  - intros p Hp. apply in_map_iff in Hp. destruct Hp as (o & <- & Ho).
    exists (l_max (local_of kernel n o)). split.
    + unfold local_maxs. rewrite map_map. apply in_map_iff.
      exists o. split; [reflexivity | apply Hsel; exact Ho].
    + rewrite <- (segments_arr arr num_threads o Ho) at 1.
      apply local_max_greatest.
  - apply raise_fold. apply isnan_zero.
Qed.

End Coordinator.

(* ================================================================= *)
(** * The partition of the outer index range (C4) *)

Lemma nth_error_range lo hi (a : nat) :
  (a < Z.to_nat (hi - lo))%nat ->
  nth_error (range lo hi) a = Some (lo + Z.of_nat a).
Proof.
  intros H. unfold range. rewrite nth_error_map.
  rewrite (nth_error_nth' _ O) by (rewrite length_seq; exact H).
  rewrite seq_nth by exact H. reflexivity.
Qed.

Lemma nth_error_segments n arr num_threads (a : nat) d :
  nth_error (segments n arr num_threads) a = Some d ->
  Z.of_nat a < num_threads /\
  d = make_data n arr num_threads (Z.quot n num_threads) (Z.of_nat a).
Proof.
  intros H.
  assert (Ha : (a < length (segments n arr num_threads))%nat)
    by (apply nth_error_Some; congruence).
  rewrite length_segments in Ha. split; [lia |].
  unfold segments in H. rewrite nth_error_map in H.
  rewrite nth_error_range in H by (rewrite Z.sub_0_r; exact Ha).
  simpl in H. congruence.
Qed.



(** The segments of ten slots among four threads: three blocks of two
    and a last block of four. *)
Example segments_10_4 :
  map (fun d => (td_start d, td_end d)) (segments 10 meridian3 4) =
  [(0, 2); (2, 4); (4, 6); (6, 10)].
Proof. reflexivity. Qed.

(** More threads than slots: empty segments, and a last one that takes
    everything. *)
Example segments_3_5 :
  map (fun d => (td_start d, td_end d)) (segments 3 meridian3 5) =
  [(0, 0); (0, 0); (0, 0); (0, 0); (0, 3)].
Proof. reflexivity. Qed.

(* ================================================================= *)
(** * The pair count of the engine *)

Lemma in_thread_pairs n s e p :
  0 <= n <= INT_MAX -> 0 <= s <= e -> e <= n ->
  In p (thread_pairs n s e) <-> s <= fst p < e /\ fst p < snd p < n.
Proof.
  intros Hn Hs He. rewrite thread_pairs_small by assumption.
  rewrite in_flat_map. split.
  - intros (i & Hi & Hp). apply in_range in Hi. apply in_pairs_from in Hp. lia.
  - intros H. exists (fst p). split; [apply in_range; lia |].
    apply in_pairs_from. lia.
Qed.

(** The engine on an array of [n] slots, [n] the bound of its loops.
    For [2 <= n <= INT_MAX], every thread count [num_threads >= 1] and
    every schedule, the call returns,
    and the counts the threads wrote into [data] add up to
    [n * (n - 1) / 2], which is also [total_count].  The count of a
    thread is the number of pairs its loops visit; a thread with segment
    [start, end) visits exactly the pairs [(i, j)] with [start <= i < end]
    and [i < j < n]; the pairs of all threads, segment after segment, are
    the list of all [(i, j)] with [0 <= i < j < n], which has no
    duplicate. *)
Lemma engine_pair_count
    (kernel : float -> float -> float -> float -> float) (n : Z)
    (sched : list nat) (arr : list Star) (num_threads : Z) :
  2 <= n <= INT_MAX -> Z.of_nat (length arr) = n -> 1 <= num_threads ->
  Permutation sched (in_order num_threads) ->
  exists data g,
    determineAverageAngularDistance_sched kernel n sched arr num_threads
      initial_globals = Some (data, g) /\
    fold_right Z.add 0 (map td_count data) = n * (n - 1) / 2 /\
    total_count data = n * (n - 1) / 2 /\
    (forall d, In d data -> td_count d = Z.of_nat (length (pairs_of n d))) /\
    (forall d p, In d data ->
       (In p (pairs_of n d) <->
        td_start d <= fst p < td_end d /\ fst p < snd p < n)) /\
    concat (map (pairs_of n) data) = all_pairs n /\
    NoDup (all_pairs n) /\
    (forall p, In p (all_pairs n) <-> 0 <= fst p < snd p /\ snd p < n).
Proof.
  intros Hn _ HT Hs.
  assert (Hn' : 0 <= n <= INT_MAX) by lia.
  pose proof (pair_count_bound n Hn') as Hb.
  pose proof (pairs_cover n arr num_threads Hn' HT) as Hc.
  fold (pairs_of n) in Hc.
  assert (Hmap : map (pairs_of n) (map (scanned kernel n) (segments n arr num_threads))
                 = map (pairs_of n) (segments n arr num_threads))
    by (rewrite map_map; reflexivity).
  eexists. eexists. split.
  { apply coordinator_result; [lia | exact Hs]. }
  split; [| split; [| split; [| split; [| split; [| split]]]]].
  - rewrite sum_counts; rewrite Hc, length_all_pairs by lia; [reflexivity | lia].
  - apply total_count_scanned; assumption.
  - intros d Hd. apply in_map_iff in Hd. destruct Hd as (o & <- & Ho).
    change (pairs_of n (scanned kernel n o)) with (pairs_of n o).
    rewrite scanned_count. fold (pairs_of n o). unfold uint64.
    apply Z.mod_small.
    pose proof (length_part_le (pairs_of n) _ o Ho) as Hle.
    rewrite Hc in Hle. pose proof (length_all_pairs n) as Hl. lia.
  - intros d p Hd. apply in_map_iff in Hd. destruct Hd as (o & <- & Ho).
    destruct (segment_bounds n arr num_threads o) as [? ?]; [lia | lia | exact Ho |].
    apply in_thread_pairs; simpl; lia.
  - rewrite Hmap. exact Hc.
  - apply NoDup_all_pairs.
  - apply in_all_pairs.
Qed.

Example engine_pair_count_meridian3 :
  exists data g,
    determineAverageAngularDistance_sched meridian_distance 3 [1%nat; 0%nat]
      meridian3 2 initial_globals = Some (data, g) /\
    fold_right Z.add 0 (map td_count data) = 3 * (3 - 1) / 2 /\
    total_count data = 3 * (3 - 1) / 2 /\
    (forall d, In d data -> td_count d = Z.of_nat (length (pairs_of 3 d))) /\
    (forall d p, In d data ->
       (In p (pairs_of 3 d) <->
        td_start d <= fst p < td_end d /\ fst p < snd p < 3)) /\
    concat (map (pairs_of 3) data) = all_pairs 3 /\
    NoDup (all_pairs 3) /\
    (forall p, In p (all_pairs 3) <-> 0 <= fst p < snd p /\ snd p < 3).
Proof.
  apply (engine_pair_count meridian_distance 3 [1%nat; 0%nat] meridian3 2).
  - unfold INT_MAX. lia.
  - reflexivity.
  - lia.
  - apply perm_swap.
Qed.

(** The program: 30000 slots give 449985000 pairs. *)
Example pair_count_program : NUM_STARS * (NUM_STARS - 1) / 2 = 449985000.
Proof. reflexivity. Qed.

(* ================================================================= *)
(** * Global minimum and maximum of the engine (C5) *)

Lemma eqb_refl_ordered x : isnan x = false -> (x =? x)%float = true.
Proof. unfold isnan. intros H. apply negb_false_iff in H. exact H. Qed.

Lemma ltb_leb_trans x y z :
  (x <? y)%float = true -> (y <=? z)%float = true -> (x <? z)%float = true.
Proof.
  intros H1 H2. apply ltb_key in H1. apply leb_key in H2. apply ltb_key.
  destruct H1 as (Hx & Hy & H1), H2 as (_ & Hz & H2). repeat split; trivial.
  destruct (key x) as [[a b] c], (key y) as [[a' b'] c'], (key z) as [[a2 b2] c2].
  simpl in *. destruct H2 as [H2 | H2]; [lia | inversion H2; subst; lia].
Qed.

(** The two zeros are the only distinct doubles that compare equal. *)
Lemma sf_key_inj (a b : spec_float) :
  sf_nan a = false -> sf_nan b = false -> sf_key a = sf_key b ->
  a = b \/ (sf_key a = (0, 0, 0) /\ sf_key b = (0, 0, 0)).
Proof.
  destruct a as [sa|sa| |sa ma ea], b as [sb|sb| |sb mb eb];
    simpl; try congruence; intros _ _ H;
    try (right; split; reflexivity);
    try (destruct sa; discriminate H); try (destruct sb; discriminate H).
  - destruct sa, sb; try discriminate H; left; reflexivity.
  - destruct sa, sb; try discriminate H; left; inversion H; subst;
      try reflexivity.
    f_equal. lia.
Qed.

Lemma eqb_eq_or_zero x y :
  (x =? y)%float = true ->
  x = y \/ ((x =? 0)%float = true /\ (y =? 0)%float = true).
Proof.
  intros H. apply eqb_key in H. destruct H as (Hx & Hy & Hk).
  destruct (sf_key_inj _ _ Hx Hy Hk) as [E | [E1 E2]].
  - left. rewrite <- (SF2Prim_Prim2SF x), <- (SF2Prim_Prim2SF y), E.
    reflexivity.
  - right. split; apply eqb_key; repeat split; trivial.
Qed.

Lemma least_is_minimum m0 l m :
  least_from m0 l m -> l <> [] ->
  (forall d, In d l -> isnan d = false /\ (d <? m0)%float = true) ->
  is_minimum m l.
Proof.
  intros (Hm & Hin & Hle & Hall) Hne Hl. split.
  - destruct Hin as [-> | Hin].
    + destruct l as [|d0 l]; [congruence |].
      destruct (Hl d0 (or_introl eq_refl)) as [Hn Hlt].
      pose proof (Hall d0 (or_introl eq_refl) Hn) as Hle0.
      pose proof (leb_ltb_trans _ _ _ Hle0 Hlt) as Habs.
      rewrite ltb_irrefl in Habs. discriminate.
    + exists m. split; [exact Hin | apply eqb_refl_ordered; exact Hm].
  - intros d Hd. apply Hall; [exact Hd | apply (Hl d Hd)].
Qed.

Lemma greatest_is_maximum m0 l m :
  greatest_from m0 l m -> l <> [] ->
  (forall d, In d l -> (m0 <=? d)%float = true) ->
  is_maximum m l.
Proof.
  intros (Hm & Hin & Hle & Hall) Hne Hl. split.
  - destruct Hin as [-> | Hin].
    + destruct l as [|d0 l]; [congruence |].
      exists d0. split; [left; reflexivity |].
      pose proof (Hl d0 (or_introl eq_refl)) as H0.
      apply leb_antisym; [exact H0 |].
      apply Hall; [left; reflexivity | apply (leb_isnan _ _ H0)].
    + exists m. split; [exact Hin | apply eqb_refl_ordered; exact Hm].
  - intros d Hd. apply Hall; [exact Hd |]. apply (leb_isnan _ _ (Hl d Hd)).
Qed.

Lemma pair_distances_nonempty kernel n arr :
  2 <= n -> pair_distances kernel n arr <> [].
Proof.
  intros Hn E. assert (H : In (0, 1) (all_pairs n)) by (apply in_all_pairs; simpl; lia).
  apply (in_map (pair_distance kernel arr)) in H.
  fold (pair_distances kernel n arr) in H. rewrite E in H. exact H.
Qed.

(** The engine on an array of [n] slots, [n] the bound of its loops.
    For [2 <= n <= INT_MAX],
    every thread count [num_threads >= 1] and every schedule, if the
    kernel returns a separation in [0, 180] for every pair of the array,
    then the call returns, the global [min] is a minimum of the
    separations of all unique pairs [i < j < n], and the global [max] is
    a maximum of them. *)
Lemma engine_min_max
    (kernel : float -> float -> float -> float -> float) (n : Z)
    (sched : list nat) (arr : list Star) (num_threads : Z) :
  2 <= n <= INT_MAX -> Z.of_nat (length arr) = n -> 1 <= num_threads ->
  Permutation sched (in_order num_threads) ->
  Forall in_degrees (pair_distances kernel n arr) ->
  exists data g,
    determineAverageAngularDistance_sched kernel n sched arr num_threads
      initial_globals = Some (data, g) /\
    is_minimum (g_min g) (pair_distances kernel n arr) /\
    is_maximum (g_max g) (pair_distances kernel n arr).
Proof.
  intros Hn _ HT Hs Hk.
  assert (Hn' : 0 <= n <= INT_MAX) by lia.
  rewrite Forall_forall in Hk.
  eexists. eexists. split.
  { apply coordinator_result; [lia | exact Hs]. }
  cbn [g_min g_max initial_globals]. split.
  - apply least_is_minimum with (m0 := DBL_MAX).
    + apply global_min_least; assumption.
    + apply pair_distances_nonempty. lia.
    + intros d Hd. destruct (Hk d Hd) as [H0 H180]. split.
      * apply (leb_isnan _ _ H0).
      * apply leb_ltb_trans with 180%float; [exact H180 | reflexivity].
  - apply greatest_is_maximum with (m0 := 0%float).
    + apply global_max_greatest; assumption.
    + apply pair_distances_nonempty. lia.
    + intros d Hd. apply (Hk d Hd).
Qed.

Example engine_min_max_meridian3 :
  exists data g,
    determineAverageAngularDistance_sched meridian_distance 3 [1%nat; 0%nat]
      meridian3 2 initial_globals = Some (data, g) /\
    is_minimum (g_min g) (pair_distances meridian_distance 3 meridian3) /\
    is_maximum (g_max g) (pair_distances meridian_distance 3 meridian3).
Proof.
  apply (engine_min_max meridian_distance 3 [1%nat; 0%nat] meridian3 2).
  - unfold INT_MAX. lia.
  - reflexivity.
  - lia.
  - apply perm_swap.
  - vm_compute. repeat constructor.
Qed.

(** Three stars on one meridian, two threads: the separations are 45, 90
    and 45 degrees. *)
Example run_meridian3 :
  option_map snd
    (determineAverageAngularDistance meridian_distance 3 meridian3 2 initial_globals)
  = Some (mkGlobals 45 90 0).
Proof. vm_compute. reflexivity. Qed.

(** C5.  For every array [arr] of [n <= INT_MAX] slots, every thread
    count [k > 1] and every pair of schedules, the call with one thread
    and the call with [k] threads both return, and their global minima
    compare equal, as do their global maxima; the two minima (maxima)
    are moreover the same double unless both are zeros. *)
Theorem min_max_independent_of_thread_count
    (kernel : float -> float -> float -> float -> float) (n : Z)
    (arr : list Star) (k : Z) (sched1 schedk : list nat) :
  0 <= n <= INT_MAX -> Z.of_nat (length arr) = n -> 1 < k ->
  Permutation sched1 (in_order 1) -> Permutation schedk (in_order k) ->
  exists data1 g1 datak gk,
    determineAverageAngularDistance_sched kernel n sched1 arr 1
      initial_globals = Some (data1, g1) /\
    determineAverageAngularDistance_sched kernel n schedk arr k
      initial_globals = Some (datak, gk) /\
    (g_min g1 =? g_min gk)%float = true /\
    (g_max g1 =? g_max gk)%float = true /\
    (g_min g1 = g_min gk \/
     ((g_min g1 =? 0)%float = true /\ (g_min gk =? 0)%float = true)) /\
    (g_max g1 = g_max gk \/
     ((g_max g1 =? 0)%float = true /\ (g_max gk =? 0)%float = true)).
Proof.
  intros Hn _ Hk Hs1 Hsk.
  eexists. eexists. eexists. eexists.
  split; [apply coordinator_result; [lia | exact Hs1] |].
  split; [apply coordinator_result; [lia | exact Hsk] |].
  cbn [g_min g_max initial_globals].
  assert (Emin : (fold_left lower (local_mins kernel n sched1 (segments n arr 1)) DBL_MAX
                  =? fold_left lower (local_mins kernel n schedk (segments n arr k)) DBL_MAX)%float
                 = true).
  { apply least_from_unique with (m0 := DBL_MAX) (l := pair_distances kernel n arr);
      apply global_min_least; trivial; lia. }
  assert (Emax : (fold_left raise (local_maxs kernel n sched1 (segments n arr 1)) 0
                  =? fold_left raise (local_maxs kernel n schedk (segments n arr k)) 0)%float
                 = true).
  { apply greatest_from_unique with (m0 := 0%float) (l := pair_distances kernel n arr);
      apply global_max_greatest; trivial; lia. }
  repeat split; trivial; apply eqb_eq_or_zero; assumption.
Qed.

Lemma min_max_independent_of_thread_count_witness :
  exists data1 g1 datak gk,
    determineAverageAngularDistance_sched meridian_distance 3 [0%nat] meridian3 1
      initial_globals = Some (data1, g1) /\
    determineAverageAngularDistance_sched meridian_distance 3 [1%nat; 0%nat] meridian3 2
      initial_globals = Some (datak, gk) /\
    (g_min g1 =? g_min gk)%float = true /\
    (g_max g1 =? g_max gk)%float = true /\
    (g_min g1 = g_min gk \/
     ((g_min g1 =? 0)%float = true /\ (g_min gk =? 0)%float = true)) /\
    (g_max g1 = g_max gk \/
     ((g_max g1 =? 0)%float = true /\ (g_max gk =? 0)%float = true)).
Proof.
  apply (min_max_independent_of_thread_count meridian_distance 3 meridian3 2
           [0%nat] [1%nat; 0%nat]).
  - unfold INT_MAX. lia.
  - reflexivity.
  - lia.
  - apply Permutation_refl.
  - apply perm_swap.
Defined.

(* ================================================================= *)
(** * The mean (C1, C9) *)

Lemma mean_is_zero n :
  2 <= n <= INT_MAX -> (0 / of_uint64 (n * (n - 1) / 2))%float = 0%float.
Proof.
  intros Hn. apply zero_div_of_uint64. unfold INT_MAX in Hn. split.
  - apply Z.div_le_lower_bound; nia.
  - apply Z.div_lt_upper_bound; [lia |].
    assert (n * (n - 1) <= 2147483647 * 2147483647) by nia.
    change (2 ^ 63) with 9223372036854775808. lia.
Qed.

Lemma coordinator_mean kernel n sched arr num_threads :
  0 <= n <= INT_MAX -> 1 <= num_threads ->
  Permutation sched (in_order num_threads) ->
  exists data g,
    determineAverageAngularDistance_sched kernel n sched arr num_threads
      initial_globals = Some (data, g) /\
    (forall d, In d data -> td_sum d = 0%float) /\
    total_sum data = 0%float /\
    g_mean g = (0 / of_uint64 (n * (n - 1) / 2))%float /\
    least_from DBL_MAX (pair_distances kernel n arr) (g_min g) /\
    greatest_from 0%float (pair_distances kernel n arr) (g_max g).
Proof.
  intros Hn HT Hs. eexists. eexists. split.
  { apply coordinator_result; [lia | exact Hs]. }
  cbn [g_min g_max g_mean initial_globals].
  split; [| split; [| split; [| split]]].
  - intros d Hd. apply in_map_iff in Hd. destruct Hd as (o & <- & _).
    apply scanned_sum.
  - apply total_sum_scanned.
  - rewrite total_sum_scanned, total_count_scanned by assumption. reflexivity.
  - apply global_min_least; assumption.
  - apply global_max_greatest; assumption.
Qed.

(** C1, as the code has it.  For every array [arr] of [n <= INT_MAX]
    slots, every thread count [num_threads >= 1] and every schedule, the
    call returns; every thread writes back the sum [0], so [total_sum] is
    [0] and [mean] is [0 / (n * (n - 1) / 2)], whatever the separations
    are: [0] as soon as there is a pair. *)
Theorem sum_never_accumulated
    (kernel : float -> float -> float -> float -> float) (n : Z)
    (sched : list nat) (arr : list Star) (num_threads : Z) :
  0 <= n <= INT_MAX -> Z.of_nat (length arr) = n -> 1 <= num_threads ->
  Permutation sched (in_order num_threads) ->
  exists data g,
    determineAverageAngularDistance_sched kernel n sched arr num_threads
      initial_globals = Some (data, g) /\
    (forall d, In d data -> td_sum d = 0%float) /\
    total_sum data = 0%float /\
    g_mean g = (0 / of_uint64 (n * (n - 1) / 2))%float /\
    (2 <= n -> g_mean g = 0%float).
Proof.
  intros Hn _ HT Hs.
  destruct (coordinator_mean kernel n sched arr num_threads Hn HT Hs)
    as (data & g & H1 & H2 & H3 & H4 & _).
  exists data, g. repeat split; try assumption.
  intros H. rewrite H4. apply mean_is_zero. lia.
Qed.

Lemma sum_never_accumulated_witness :
  exists data g,
    determineAverageAngularDistance_sched meridian_distance 3 [1%nat; 0%nat]
      meridian3 2 initial_globals = Some (data, g) /\
    (forall d, In d data -> td_sum d = 0%float) /\
    total_sum data = 0%float /\
    g_mean g = (0 / of_uint64 (3 * (3 - 1) / 2))%float /\
    (2 <= 3 -> g_mean g = 0%float).
Proof.
  apply (sum_never_accumulated meridian_distance 3 [1%nat; 0%nat] meridian3 2).
  - unfold INT_MAX. lia.
  - reflexivity.
  - lia.
  - apply perm_swap.
Defined.

(** In the program the quotient is [0 / 449985000 = 0]. *)
Example mean_program :
  (0 / of_uint64 (NUM_STARS * (NUM_STARS - 1) / 2))%float = 0%float.
Proof. vm_compute. reflexivity. Qed.

(** Three stars on one meridian: the separations 45, 90 and 45 have the
    mean 60, and the engine reports 0. *)
Example mean_meridian3 :
  arithmetic_mean (pair_distances meridian_distance 3 meridian3) = 60%float /\
  option_map (fun r => g_mean (snd r))
    (determineAverageAngularDistance meridian_distance 3 meridian3 2 initial_globals)
  = Some 0%float.
Proof. vm_compute. split; reflexivity. Qed.

(** The least of [DBL_MAX] and positive separations is positive. *)
Lemma least_positive (l : list float) (m : float) :
  least_from DBL_MAX l m -> Forall positive_degrees l -> (0 <? m)%float = true.
Proof.
  intros (_ & Hin & _) Hl. rewrite Forall_forall in Hl.
  destruct Hin as [-> | Hin]; [reflexivity | apply (Hl m Hin)].
Qed.

(** C9, as the code has it.  For every array [arr] of [n] slots,
    [2 <= n <= INT_MAX], whose pairs all have a positive separation,
    every call with [num_threads >= 1] returns a [mean] strictly below
    [min]: [min <= mean] fails. *)
Theorem mean_below_min
    (kernel : float -> float -> float -> float -> float) (n : Z)
    (sched : list nat) (arr : list Star) (num_threads : Z) :
  2 <= n <= INT_MAX -> Z.of_nat (length arr) = n -> 1 <= num_threads ->
  Permutation sched (in_order num_threads) ->
  Forall positive_degrees (pair_distances kernel n arr) ->
  exists data g,
    determineAverageAngularDistance_sched kernel n sched arr num_threads
      initial_globals = Some (data, g) /\
    (g_mean g <? g_min g)%float = true /\
    (g_min g <=? g_mean g)%float = false.
Proof.
  intros Hn _ HT Hs Hk.
  assert (Hn' : 0 <= n <= INT_MAX) by lia.
  destruct (coordinator_mean kernel n sched arr num_threads Hn' HT Hs)
    as (data & g & H1 & _ & _ & Hmean & Hmin & _).
  exists data, g. split; [exact H1 |].
  assert (Hlt : (g_mean g <? g_min g)%float = true).
  { rewrite Hmean, mean_is_zero by exact Hn.
    apply (least_positive _ _ Hmin Hk). }
  split; [exact Hlt |].
  destruct (g_min g <=? g_mean g)%float eqn:E; [| reflexivity].
  pose proof (ltb_leb_trans _ _ _ Hlt E) as Habs.
  rewrite ltb_irrefl in Habs. discriminate.
Qed.

Lemma mean_below_min_witness :
  exists data g,
    determineAverageAngularDistance_sched meridian_distance 3 [1%nat; 0%nat]
      meridian3 2 initial_globals = Some (data, g) /\
    (g_mean g <? g_min g)%float = true /\
    (g_min g <=? g_mean g)%float = false.
Proof.
  apply (mean_below_min meridian_distance 3 [1%nat; 0%nat] meridian3 2).
  - unfold INT_MAX. lia.
  - reflexivity.
  - lia.
  - apply perm_swap.
  - vm_compute. repeat constructor.
Defined.

(* ================================================================= *)
(** * Thread counts that are not positive (C7) *)

(** C7, as the code has it.  [main] passes [atoi(optarg)] on unchecked.
    For every [num_threads <= 0] no configuration error is raised: with
    [num_threads = 0] the call stops at the division
    [NUM_STARS / num_threads]; with [num_threads < 0] no segment is
    computed and no thread is created, and the call returns with the
    globals [min = DBL_MAX], [max = 0] and [mean = 0 / 0], a NaN. *)
Theorem nonpositive_thread_count
    (kernel : float -> float -> float -> float -> float) (n : Z)
    (arr : list Star) (num_threads : Z) :
  num_threads <= 0 ->
  determineAverageAngularDistance kernel n arr num_threads initial_globals =
  if num_threads =? 0 then None
  else Some ([], mkGlobals DBL_MAX 0%float nan).
Proof.
  intros HT. unfold determineAverageAngularDistance,
    determineAverageAngularDistance_sched, in_order.
  destruct (Z.eqb_spec num_threads 0) as [E | E]; [reflexivity |].
  rewrite (range_nil 0 num_threads) by lia.
  replace (Z.to_nat num_threads) with O by lia.
  reflexivity.
Qed.

Lemma nonpositive_thread_count_witness :
  determineAverageAngularDistance meridian_distance 3 meridian3 (-2) initial_globals =
  if -2 =? 0 then None
  else Some ([], mkGlobals DBL_MAX 0%float nan).
Proof. apply (nonpositive_thread_count meridian_distance 3 meridian3 (-2)). lia. Defined.

(** The program started with [-t -1] on a catalogue of three records:
    the globals are printed, the mean as a NaN. *)
Lemma negative_thread_count_reports :
  main_sched meridian_distance [] meridian3 (-1) =
  Some (mkGlobals DBL_MAX 0%float nan).
Proof. vm_compute. reflexivity. Qed.

(* ================================================================= *)
(** * The program on short catalogues (C8, C10) *)

Lemma load_fits records :
  Z.of_nat (length records) <= NUM_STARS ->
  load records =
  Some (records ++ repeat zero_star (Z.to_nat NUM_STARS - length records)).
Proof.
  intros H. unfold load.
  destruct (Z.leb_spec (Z.of_nat (length records)) NUM_STARS); [reflexivity | lia].
Qed.

(** A slot the loader did not reach still holds zeros. *)
Lemma unread_slot records (j : Z) :
  Z.of_nat (length records) <= j ->
  star_at (records ++ repeat zero_star (Z.to_nat NUM_STARS - length records)) j
  = zero_star.
Proof.
  intros H. unfold star_at. rewrite app_nth2 by lia. apply nth_repeat.
Qed.

Lemma main_sched_result kernel sched records num_threads :
  Z.of_nat (length records) <= NUM_STARS -> 1 <= num_threads ->
  Permutation sched (in_order num_threads) ->
  exists star_array data g,
    load records = Some star_array /\
    star_array = records ++ repeat zero_star (Z.to_nat NUM_STARS - length records) /\
    determineAverageAngularDistance_sched kernel NUM_STARS sched star_array
      num_threads initial_globals = Some (data, g) /\
    data = map (scanned kernel NUM_STARS) (segments NUM_STARS star_array num_threads) /\
    main_sched kernel sched records num_threads = Some g /\
    total_count data = 449985000 /\
    g_mean g = 0%float.
Proof.
  intros Hl HT Hs.
  assert (HN : 0 <= NUM_STARS <= INT_MAX) by (unfold NUM_STARS, INT_MAX; lia).
  eexists. eexists. eexists.
  split; [apply load_fits; exact Hl |].
  split; [reflexivity |].
  split; [apply coordinator_result; [lia | exact Hs] |].
  split; [reflexivity |].
  split.
  - unfold main_sched. rewrite load_fits by exact Hl.
    rewrite coordinator_result by (trivial; lia). reflexivity.
  - cbn [g_mean]. rewrite total_sum_scanned, total_count_scanned by assumption.
    split; [reflexivity | apply mean_program].
Qed.

(** The program on a full catalogue: with 30000 records at pairwise
    positive separations, the reported mean lies strictly below the
    reported minimum. *)
Lemma mean_below_min_program kernel sched records num_threads :
  Z.of_nat (length records) = NUM_STARS -> 1 <= num_threads ->
  Permutation sched (in_order num_threads) ->
  Forall positive_degrees (pair_distances kernel NUM_STARS records) ->
  exists g,
    main_sched kernel sched records num_threads = Some g /\
    g_mean g = 0%float /\
    (g_mean g <? g_min g)%float = true.
Proof.
  intros Hl HT Hs Hk.
  assert (HN : 0 <= NUM_STARS <= INT_MAX) by (unfold NUM_STARS, INT_MAX; lia).
  destruct (coordinator_mean kernel NUM_STARS sched records num_threads HN HT Hs)
    as (data & g & H1 & _ & _ & _ & Hmin & _).
  destruct (main_sched_result kernel sched records num_threads)
    as (sa & data' & g' & _ & Hsa & H3 & _ & H4 & _ & H5);
    [lia | exact HT | exact Hs |].
  assert (E : (Z.to_nat NUM_STARS - length records)%nat = O) by lia.
  rewrite E in Hsa. cbn [repeat] in Hsa. rewrite app_nil_r in Hsa. subst sa.
  rewrite H1 in H3. assert (g = g') by congruence. subst g'.
  exists g. split; [exact H4 |]. split; [exact H5 |].
  rewrite H5. apply (least_positive _ _ Hmin Hk).
Qed.

(** The engine on an array of fewer than two slots: no pair, the count
    stays at 0, [min] and [max] keep their initial values, and the mean
    is [0 / 0], a NaN; the call returns all the same. *)
Lemma engine_below_two_slots kernel n sched arr num_threads :
  0 <= n < 2 -> 1 <= num_threads ->
  Permutation sched (in_order num_threads) ->
  exists data g,
    determineAverageAngularDistance_sched kernel n sched arr num_threads
      initial_globals = Some (data, g) /\
    total_count data = 0 /\
    g_min g = DBL_MAX /\ (g_max g =? 0)%float = true /\ isnan (g_mean g) = true.
Proof.
  intros Hn HT Hs.
  destruct (coordinator_mean kernel n sched arr num_threads)
    as (data & g & H1 & _ & _ & Hmean & Hmin & Hmax);
    [unfold INT_MAX; lia | exact HT | exact Hs |].
  assert (Hp : pair_distances kernel n arr = []).
  { unfold pair_distances, all_pairs.
    assert (E : n = 0 \/ n = 1) by lia.
    destruct E as [-> | ->]; reflexivity. }
  rewrite Hp in Hmin, Hmax.
  exists data, g. split; [exact H1 |].
  assert (Hc : total_count data = 0).
  { rewrite (coordinator_result kernel n sched arr num_threads initial_globals)
      in H1 by (trivial; lia).
    inversion H1; subst. rewrite total_count_scanned by (unfold INT_MAX; lia).
    assert (E : n = 0 \/ n = 1) by lia.
    destruct E as [-> | ->]; reflexivity. }
  split; [exact Hc |].
  destruct Hmin as (_ & [Hm | []] & _). destruct Hmax as (_ & [HM | []] & _).
  split; [exact Hm |]. split; [rewrite HM; reflexivity |].
  rewrite Hmean. assert (E : n = 0 \/ n = 1) by lia.
  destruct E as [-> | ->]; reflexivity.
Qed.

(** C8, as the code has it.  No precondition error is raised for fewer
    than two positions, at either level.  The engine on an array of
    [n < 2] slots, with any thread count [num_threads >= 1] and any
    schedule, returns: the count is 0, [min] and [max] keep their initial
    values and [mean] is [0 / 0], a NaN.  The program, where
    [NUM_STARS = 30000], on a catalogue of fewer than two records:
    [star_array] keeps its 30000 slots, the call returns and [main]
    reports the globals; the pair count is 449985000, so the mean is not
    derived by a division by zero and is not a NaN. *)
Theorem short_catalog_still_runs :
  (forall (kernel : float -> float -> float -> float -> float) (n : Z)
          (sched : list nat) (arr : list Star) (num_threads : Z),
      0 <= n < 2 -> Z.of_nat (length arr) = n -> 1 <= num_threads ->
      Permutation sched (in_order num_threads) ->
      exists data g,
        determineAverageAngularDistance_sched kernel n sched arr num_threads
          initial_globals = Some (data, g) /\
        total_count data = 0 /\
        g_min g = DBL_MAX /\ (g_max g =? 0)%float = true /\
        isnan (g_mean g) = true) /\
  (forall (kernel : float -> float -> float -> float -> float)
          (sched : list nat) (records : list Star) (num_threads : Z),
      Z.of_nat (length records) < 2 -> 1 <= num_threads ->
      Permutation sched (in_order num_threads) ->
      exists star_array data g,
        load records = Some star_array /\
        determineAverageAngularDistance_sched kernel NUM_STARS sched star_array
          num_threads initial_globals = Some (data, g) /\
        main_sched kernel sched records num_threads = Some g /\
        total_count data = 449985000 /\
        isnan (g_mean g) = false).
Proof.
  split.
  - intros kernel n sched arr num_threads Hn _ HT Hs.
    apply engine_below_two_slots; assumption.
  - intros kernel sched records num_threads Hl HT Hs.
    destruct (main_sched_result kernel sched records num_threads)
      as (sa & data & g & H1 & _ & H2 & _ & H3 & H4 & H5);
      [unfold NUM_STARS; lia | exact HT | exact Hs |].
    exists sa, data, g. repeat split; trivial. rewrite H5. reflexivity.
Qed.

Lemma short_catalog_still_runs_witness :
  (exists data g,
      determineAverageAngularDistance_sched meridian_distance 1 [0%nat]
        [mkStar 7 10%float 20%float] 1 initial_globals = Some (data, g) /\
      total_count data = 0 /\
      g_min g = DBL_MAX /\ (g_max g =? 0)%float = true /\
      isnan (g_mean g) = true) /\
  (exists star_array data g,
      load [mkStar 7 10%float 20%float] = Some star_array /\
      determineAverageAngularDistance_sched meridian_distance NUM_STARS [0%nat]
        star_array 1 initial_globals = Some (data, g) /\
      main_sched meridian_distance [0%nat] [mkStar 7 10%float 20%float] 1 = Some g /\
      total_count data = 449985000 /\
      isnan (g_mean g) = false).
Proof.
  split.
  - apply (proj1 short_catalog_still_runs meridian_distance 1 [0%nat]
             [mkStar 7 10%float 20%float] 1).
    + lia.
    + reflexivity.
    + lia.
    + apply Permutation_refl.
  - apply (proj2 short_catalog_still_runs meridian_distance [0%nat]
             [mkStar 7 10%float 20%float] 1).
    + simpl. lia.
    + lia.
    + apply Permutation_refl.
Defined.

(** Fewer than two positions, one thread.  The engine on an array of one
    slot returns a NaN for the mean; the program on an empty catalogue
    reports a result. *)
Lemma empty_catalog_reports :
  option_map snd
    (determineAverageAngularDistance meridian_distance 1
       [mkStar 7 10%float 20%float] 1 initial_globals)
  = Some (mkGlobals DBL_MAX 0%float nan) /\
  exists g, main_sched meridian_distance [0%nat] [] 1 = Some g.
Proof.
  split; [vm_compute; reflexivity |].
  destruct (main_sched_result meridian_distance [0%nat] [] 1)
    as (sa & data & g & _ & _ & _ & _ & H & _).
  - unfold NUM_STARS. simpl. lia.
  - lia.
  - apply Permutation_refl.
  - exists g. exact H.
Qed.

(** C10.  For every input of fewer than [NUM_STARS = 30000] records,
    every thread count [num_threads >= 1] and every schedule:
    [star_array] has 30000 slots, the segments of the threads enumerate
    [0 .. 29999], the pairs the threads visit are all [(i, j)] with
    [0 <= i < j < 30000], 449985000 of them, whatever the number of
    records; and every pair [(i, j)] whose [j] is at or beyond the number
    of records is visited although slot [j] was never written by the
    loader and still holds zeros. *)
Theorem scan_bounded_by_NUM_STARS
    (kernel : float -> float -> float -> float -> float)
    (sched : list nat) (records : list Star) (num_threads : Z) :
  Z.of_nat (length records) < NUM_STARS -> 1 <= num_threads ->
  Permutation sched (in_order num_threads) ->
  exists star_array data g,
    load records = Some star_array /\
    determineAverageAngularDistance_sched kernel NUM_STARS sched star_array
      num_threads initial_globals = Some (data, g) /\
    Z.of_nat (length star_array) = 30000 /\
    concat (map segment_range data) = range 0 30000 /\
    concat (map (pairs_of NUM_STARS) data) = all_pairs 30000 /\
    total_count data = 449985000 /\
    (forall i j, 0 <= i < j -> Z.of_nat (length records) <= j < 30000 ->
       In (i, j) (concat (map (pairs_of NUM_STARS) data)) /\
       star_at star_array j = zero_star).
Proof.
  intros Hl HT Hs.
  assert (HN : 0 <= NUM_STARS <= INT_MAX) by (unfold NUM_STARS, INT_MAX; lia).
  destruct (main_sched_result kernel sched records num_threads)
    as (sa & data & g & H1 & Hsa & H2 & Hdata & _ & H4 & _);
    [lia | exact HT | exact Hs |].
  assert (Hpairs : concat (map (pairs_of NUM_STARS) data) = all_pairs NUM_STARS).
  { rewrite Hdata, map_map.
    exact (pairs_cover NUM_STARS sa num_threads HN HT). }
  exists sa, data, g.
  split; [exact H1 |]. split; [exact H2 |].
  split; [| split; [| split; [| split]]].
  - rewrite Hsa, length_app, repeat_length. unfold NUM_STARS in *. lia.
  - rewrite Hdata, map_map.
    exact (segments_cover NUM_STARS sa num_threads (proj1 HN) HT).
  - exact Hpairs.
  - exact H4.
  - intros i j Hij Hj. split.
    + rewrite Hpairs. apply in_all_pairs. simpl. unfold NUM_STARS. lia.
    + rewrite Hsa. apply unread_slot. lia.
Qed.

Lemma scan_bounded_by_NUM_STARS_witness :
  exists star_array data g,
    load meridian3 = Some star_array /\
    determineAverageAngularDistance_sched meridian_distance NUM_STARS
      [1%nat; 0%nat] star_array 2 initial_globals = Some (data, g) /\
    Z.of_nat (length star_array) = 30000 /\
    concat (map segment_range data) = range 0 30000 /\
    concat (map (pairs_of NUM_STARS) data) = all_pairs 30000 /\
    total_count data = 449985000 /\
    (forall i j, 0 <= i < j -> Z.of_nat (length meridian3) <= j < 30000 ->
       In (i, j) (concat (map (pairs_of NUM_STARS) data)) /\
       star_at star_array j = zero_star).
Proof.
  apply (scan_bounded_by_NUM_STARS meridian_distance [1%nat; 0%nat] meridian3 2).
  - unfold NUM_STARS. simpl. lia.
  - lia.
  - apply perm_swap.
Defined.

(* ================================================================= *)
(** * The program on catalogues of any size (C2, C3)

    [main] passes [star_array], of [NUM_STARS] slots, to the engine
    whatever the number of records read: the pairs and the extrema are
    those of the slots, the records of the catalogue followed by the
    slots that were never written. *)

Lemma length_star_array records :
  Z.of_nat (length records) <= NUM_STARS ->
  Z.of_nat (length (records
                      ++ repeat zero_star (Z.to_nat NUM_STARS - length records)))
  = NUM_STARS.
Proof.
  intros H. rewrite length_app, repeat_length.
  assert (0 <= NUM_STARS) by (unfold NUM_STARS; lia). lia.
Qed.

Lemma full_star_array records :
  Z.of_nat (length records) = NUM_STARS ->
  records ++ repeat zero_star (Z.to_nat NUM_STARS - length records) = records.
Proof.
  intros H.
  assert (E : (Z.to_nat NUM_STARS - length records)%nat = O) by lia.
  rewrite E. cbn [repeat]. apply app_nil_r.
Qed.

(** With two slots unread, the reported minimum is at most the separation
    the kernel gives two zero positions. *)
Lemma min_below_unread_pair kernel sched records num_threads g :
  Z.of_nat (length records) + 2 <= NUM_STARS -> 1 <= num_threads ->
  Permutation sched (in_order num_threads) ->
  isnan (kernel 0 0 0 0)%float = false ->
  main_sched kernel sched records num_threads = Some g ->
  (g_min g <=? kernel 0 0 0 0)%float = true.
Proof.
  intros Hl HT Hs Hk Hg.
  assert (HN : 0 <= NUM_STARS <= INT_MAX) by (unfold NUM_STARS, INT_MAX; lia).
  destruct (main_sched_result kernel sched records num_threads)
    as (sa & data & g1 & _ & Hsa & H2 & _ & H3 & _ & _);
    [lia | exact HT | exact Hs |].
  destruct (coordinator_mean kernel NUM_STARS sched sa num_threads HN HT Hs)
    as (data' & g' & H1 & _ & _ & _ & Hmin & _).
  rewrite H1 in H2. assert (E : g' = g1) by congruence. subst g'.
  rewrite Hg in H3. assert (E : g = g1) by congruence. subst g1.
  destruct Hmin as (_ & _ & _ & Hall).
  assert (Hd : pair_distance kernel sa (NUM_STARS - 2, NUM_STARS - 1)
               = kernel 0%float 0%float 0%float 0%float).
  { unfold pair_distance, distance. cbn [fst snd]. rewrite Hsa.
    rewrite !unread_slot by lia. reflexivity. }
  apply Hall; [| exact Hk].
  rewrite <- Hd. unfold pair_distances. apply in_map.
  apply in_all_pairs. cbn [fst snd]. unfold NUM_STARS in *. lia.
Qed.

(** C2, as amended.  For every catalogue of at most [NUM_STARS] records,
    every thread count [num_threads >= 1] and every schedule, if the
    kernel returns a separation in [0, 180] for every pair of slots of
    [star_array], then [main] reports a global [min] that is a minimum,
    and a global [max] that is a maximum, of the separations of all
    unique pairs of the [NUM_STARS] slots of [star_array]: the records of
    the catalogue followed by the slots left at zero.  They are a minimum
    and a maximum over the pairs of catalogue positions when the
    catalogue has [NUM_STARS] records; when it is two records short or
    more, two unread slots are a pair, and [min] is at most their
    separation. *)
Theorem global_min_max_over_star_array
    (kernel : float -> float -> float -> float -> float)
    (sched : list nat) (records : list Star) (num_threads : Z) :
  Z.of_nat (length records) <= NUM_STARS -> 1 <= num_threads ->
  Permutation sched (in_order num_threads) ->
  Forall in_degrees
    (pair_distances kernel NUM_STARS
       (records ++ repeat zero_star (Z.to_nat NUM_STARS - length records))) ->
  exists star_array g,
    load records = Some star_array /\
    star_array
    = records ++ repeat zero_star (Z.to_nat NUM_STARS - length records) /\
    main_sched kernel sched records num_threads = Some g /\
    is_minimum (g_min g) (pair_distances kernel NUM_STARS star_array) /\
    is_maximum (g_max g) (pair_distances kernel NUM_STARS star_array) /\
    (Z.of_nat (length records) = NUM_STARS ->
     is_minimum (g_min g)
       (pair_distances kernel (Z.of_nat (length records)) records) /\
     is_maximum (g_max g)
       (pair_distances kernel (Z.of_nat (length records)) records)) /\
    (Z.of_nat (length records) + 2 <= NUM_STARS ->
     (g_min g <=? kernel 0 0 0 0)%float = true).
Proof.
  intros Hl HT Hs Hk.
  assert (HN : 2 <= NUM_STARS <= INT_MAX) by (unfold NUM_STARS, INT_MAX; lia).
  destruct (main_sched_result kernel sched records num_threads Hl HT Hs)
    as (sa & data & g & Hload & Hsa & Hrun & _ & Hmain & _ & _).
  rewrite <- Hsa in Hk.
  assert (Hlen : Z.of_nat (length sa) = NUM_STARS)
    by (rewrite Hsa; apply length_star_array; exact Hl).
  destruct (engine_min_max kernel NUM_STARS sched sa num_threads
              HN Hlen HT Hs Hk) as (data' & g' & Hrun' & Hmin & Hmax).
  rewrite Hrun in Hrun'. assert (E : g = g') by congruence. subst g'.
  exists sa, g.
  split; [exact Hload |]. split; [exact Hsa |]. split; [exact Hmain |].
  split; [exact Hmin |]. split; [exact Hmax |]. split.
  - intros Hfull. rewrite Hfull.
    rewrite (full_star_array records Hfull) in Hsa. rewrite <- Hsa.
    split; assumption.
  - intros Hshort.
    apply (min_below_unread_pair kernel sched records num_threads g
             Hshort HT Hs); [| exact Hmain].
    assert (Hin : In (pair_distance kernel sa (NUM_STARS - 2, NUM_STARS - 1))
                    (pair_distances kernel NUM_STARS sa)).
    { unfold pair_distances. apply in_map. apply in_all_pairs.
      cbn [fst snd]. unfold NUM_STARS. lia. }
    rewrite Forall_forall in Hk. destruct (Hk _ Hin) as [H0 _].
    unfold pair_distance, distance in H0. cbn [fst snd] in H0.
    rewrite Hsa in H0. rewrite !unread_slot in H0 by lia.
    apply (leb_isnan _ _ H0).
Qed.

Lemma slot_of_short_array (l : list Star) (k j : nat) :
  In (nth j (l ++ repeat zero_star k) zero_star) (zero_star :: l).
Proof.
  destruct (Nat.lt_ge_cases j (length l)) as [H | H].
  - rewrite app_nth1 by exact H. right. apply nth_In. exact H.
  - rewrite app_nth2 by exact H. left. symmetry. apply nth_repeat.
Qed.

(** The three stars of [meridian3] and the zero slots after them: every
    separation is 0, 45 or 90 degrees. *)
Lemma meridian3_slots_in_degrees (n : Z) (k : nat) :
  Forall in_degrees
    (pair_distances meridian_distance n (meridian3 ++ repeat zero_star k)).
Proof.
  apply Forall_forall. intros d Hd. unfold pair_distances in Hd.
  apply in_map_iff in Hd. destruct Hd as ([i j] & <- & _).
  unfold pair_distance, distance, star_at. cbn [fst snd].
  pose proof (slot_of_short_array meridian3 k (Z.to_nat i)) as Hi.
  pose proof (slot_of_short_array meridian3 k (Z.to_nat j)) as Hj.
  destruct Hi as [<- | [<- | [<- | [<- | []]]]];
    destruct Hj as [<- | [<- | [<- | [<- | []]]]];
    split; vm_compute; reflexivity.
Qed.

Lemma global_min_max_over_star_array_witness :
  exists star_array g,
    load meridian3 = Some star_array /\
    star_array
    = meridian3 ++ repeat zero_star (Z.to_nat NUM_STARS - length meridian3) /\
    main_sched meridian_distance [1%nat; 0%nat] meridian3 2 = Some g /\
    is_minimum (g_min g)
      (pair_distances meridian_distance NUM_STARS star_array) /\
    is_maximum (g_max g)
      (pair_distances meridian_distance NUM_STARS star_array) /\
    (Z.of_nat (length meridian3) = NUM_STARS ->
     is_minimum (g_min g)
       (pair_distances meridian_distance (Z.of_nat (length meridian3))
          meridian3) /\
     is_maximum (g_max g)
       (pair_distances meridian_distance (Z.of_nat (length meridian3))
          meridian3)) /\
    (Z.of_nat (length meridian3) + 2 <= NUM_STARS ->
     (g_min g <=? meridian_distance 0 0 0 0)%float = true).
Proof.
  apply (global_min_max_over_star_array meridian_distance [1%nat; 0%nat]
           meridian3 2).
  - unfold NUM_STARS. simpl. lia.
  - lia.
  - apply perm_swap.
  - apply meridian3_slots_in_degrees.
Defined.

(** A catalogue of three records, one thread.  The separations of the
    catalogue's pairs are 45, 90 and 45 degrees, within the kernel's
    contract; the minimum [main] reports is none of them. *)
Lemma short_catalog_min_is_not_its_minimum :
  pair_distances meridian_distance 3 meridian3 = [45; 90; 45]%float /\
  Forall in_degrees (pair_distances meridian_distance 3 meridian3) /\
  exists g,
    main_sched meridian_distance [0%nat] meridian3 1 = Some g /\
    ~ is_minimum (g_min g) (pair_distances meridian_distance 3 meridian3).
Proof.
  assert (E : pair_distances meridian_distance 3 meridian3
              = [45; 90; 45]%float) by (vm_compute; reflexivity).
  split; [exact E |]. split; [rewrite E; vm_compute; repeat constructor |].
  destruct (main_sched_result meridian_distance [0%nat] meridian3 1)
    as (sa & data & g & _ & _ & _ & _ & Hmain & _).
  { unfold NUM_STARS. simpl. lia. }
  { lia. }
  { apply Permutation_refl. }
  exists g. split; [exact Hmain |].
  assert (Hle : (g_min g <=? meridian_distance 0 0 0 0)%float = true).
  { apply (min_below_unread_pair meridian_distance [0%nat] meridian3 1 g).
    - unfold NUM_STARS. simpl. lia.
    - lia.
    - apply Permutation_refl.
    - vm_compute. reflexivity.
    - exact Hmain. }
  change (meridian_distance 0 0 0 0) with 0%float in Hle.
  rewrite E. intros [(d & Hd & Heq) _].
  assert (Hd0 : (d <=? 0)%float = true).
  { apply leb_trans with (g_min g); [| exact Hle].
    apply eqb_leb. apply eqb_sym. exact Heq. }
  destruct Hd as [<- | [<- | [<- | []]]]; vm_compute in Hd0; discriminate Hd0.
Qed.

(** C3, as amended.  For every catalogue of [N <= NUM_STARS] records,
    every thread count [num_threads >= 1] and every schedule, the counts
    of the threads add up to [NUM_STARS * (NUM_STARS - 1) / 2], the
    number of unique pairs of slots of [star_array], whatever [N] is:
    each outer index [i] of a thread's segment contributes exactly the
    pairs [(i, j)] with [i < j < NUM_STARS], and no pair of slots is
    counted twice or skipped.  The total is [N * (N - 1) / 2] exactly
    when [N = NUM_STARS]. *)
Theorem pair_count_over_star_array
    (kernel : float -> float -> float -> float -> float)
    (sched : list nat) (records : list Star) (num_threads : Z) :
  Z.of_nat (length records) <= NUM_STARS -> 1 <= num_threads ->
  Permutation sched (in_order num_threads) ->
  exists star_array data g,
    load records = Some star_array /\
    determineAverageAngularDistance_sched kernel NUM_STARS sched star_array
      num_threads initial_globals = Some (data, g) /\
    fold_right Z.add 0 (map td_count data)
    = NUM_STARS * (NUM_STARS - 1) / 2 /\
    total_count data = NUM_STARS * (NUM_STARS - 1) / 2 /\
    (forall d, In d data ->
       td_count d = Z.of_nat (length (pairs_of NUM_STARS d))) /\
    (forall d p, In d data ->
       (In p (pairs_of NUM_STARS d) <->
        td_start d <= fst p < td_end d /\ fst p < snd p < NUM_STARS)) /\
    concat (map (pairs_of NUM_STARS) data) = all_pairs NUM_STARS /\
    NoDup (all_pairs NUM_STARS) /\
    (forall p, In p (all_pairs NUM_STARS) <->
               0 <= fst p < snd p /\ snd p < NUM_STARS) /\
    (total_count data
     = Z.of_nat (length records) * (Z.of_nat (length records) - 1) / 2
     <-> Z.of_nat (length records) = NUM_STARS).
Proof.
  intros Hl HT Hs.
  assert (HN : 2 <= NUM_STARS <= INT_MAX) by (unfold NUM_STARS, INT_MAX; lia).
  pose proof (length_star_array records Hl) as Hlen.
  destruct (engine_pair_count kernel NUM_STARS sched _ num_threads
              HN Hlen HT Hs)
    as (data & g & Hrun & Hsum & Htot & Hc & Hp & Hcat & Hnd & Hall).
  eexists. exists data, g.
  split; [apply load_fits; exact Hl |]. split; [exact Hrun |].
  split; [exact Hsum |]. split; [exact Htot |]. split; [exact Hc |].
  split; [exact Hp |]. split; [exact Hcat |]. split; [exact Hnd |].
  split; [exact Hall |].
  rewrite Htot. change (NUM_STARS * (NUM_STARS - 1) / 2) with 449985000.
  pose proof (Nat2Z.is_nonneg (length records)) as H0.
  clear Hlen. set (N := Z.of_nat (length records)) in *. clearbody N.
  split.
  - intros H. destruct (Z.eq_dec N NUM_STARS) as [E | E]; [exact E |].
    exfalso. unfold NUM_STARS in Hl, E.
    assert (Hm : N * (N - 1) <= 29999 * 29998) by nia.
    apply (Z.div_le_mono _ _ 2) in Hm; [| lia].
    change (29999 * 29998 / 2) with 449955001 in Hm. lia.
  - intros ->. reflexivity.
Qed.

Lemma pair_count_over_star_array_witness :
  exists star_array data g,
    load meridian3 = Some star_array /\
    determineAverageAngularDistance_sched meridian_distance NUM_STARS
      [1%nat; 0%nat] star_array 2 initial_globals = Some (data, g) /\
    fold_right Z.add 0 (map td_count data)
    = NUM_STARS * (NUM_STARS - 1) / 2 /\
    total_count data = NUM_STARS * (NUM_STARS - 1) / 2 /\
    (forall d, In d data ->
       td_count d = Z.of_nat (length (pairs_of NUM_STARS d))) /\
    (forall d p, In d data ->
       (In p (pairs_of NUM_STARS d) <->
        td_start d <= fst p < td_end d /\ fst p < snd p < NUM_STARS)) /\
    concat (map (pairs_of NUM_STARS) data) = all_pairs NUM_STARS /\
    NoDup (all_pairs NUM_STARS) /\
    (forall p, In p (all_pairs NUM_STARS) <->
               0 <= fst p < snd p /\ snd p < NUM_STARS) /\
    (total_count data
     = Z.of_nat (length meridian3) * (Z.of_nat (length meridian3) - 1) / 2
     <-> Z.of_nat (length meridian3) = NUM_STARS).
Proof.
  apply (pair_count_over_star_array meridian_distance [1%nat; 0%nat]
           meridian3 2).
  - unfold NUM_STARS. simpl. lia.
  - lia.
  - apply perm_swap.
Defined.

(** A catalogue of three records, one thread: three unique pairs of
    catalogue positions, 449985000 pairs counted. *)
Lemma short_catalog_count_is_not_its_pairs :
  exists star_array data g,
    load meridian3 = Some star_array /\
    determineAverageAngularDistance_sched meridian_distance NUM_STARS
      [0%nat] star_array 1 initial_globals = Some (data, g) /\
    total_count data = 449985000 /\
    fold_right Z.add 0 (map td_count data) = 449985000 /\
    449985000
    <> Z.of_nat (length meridian3) * (Z.of_nat (length meridian3) - 1) / 2.
Proof.
  assert (HN : 2 <= NUM_STARS <= INT_MAX) by (unfold NUM_STARS, INT_MAX; lia).
  assert (Hl : Z.of_nat (length meridian3) <= NUM_STARS)
    by (unfold NUM_STARS; simpl; lia).
  pose proof (length_star_array meridian3 Hl) as Hlen.
  destruct (engine_pair_count meridian_distance NUM_STARS [0%nat] _ 1
              HN Hlen) as (data & g & Hrun & Hsum & Htot & _).
  { lia. }
  { apply Permutation_refl. }
  eexists. exists data, g.
  split; [apply load_fits; exact Hl |]. split; [exact Hrun |].
  split; [exact Htot |]. split; [exact Hsum |].
  intros H. vm_compute in H. discriminate H.
Qed.

(* ================================================================= *)
(** * The distance kernel and its clamp (C6) *)

Module KernelSpec.

Local Open Scope R_scope.

Definition radians (deg : R) : R := deg * PI / 180.
Definition degrees (rad : R) : R := rad * 180 / PI.

(** The spherical law of cosines on coordinates in degrees. *)
Definition cosTheta (ra1 dec1 ra2 dec2 : R) : R :=
  sin (radians dec1) * sin (radians dec2)
  + cos (radians dec1) * cos (radians dec2) * cos (radians ra1 - radians ra2).

(** The clamp to [-1, 1]. *)
Definition clamp (x : R) : R := Rmax (-1) (Rmin 1 x).

(** [acos] of the C library: defined on [-1, 1]; outside, a domain
    error and a NaN, here [None]. *)
Definition acos_c (x : R) : option R :=
  if Rle_dec (-1) x
  then if Rle_dec x 1 then Some (acos x) else None
  else None.

(** Modelled from the spec: the body of [calculateAngularDistance]
    ([utility.c] is not among the sources; [main.c] only calls the
    function).  Section 4.1: convert the coordinates to radians, apply the
    spherical law of cosines, clamp [cosTheta] to [-1, 1], take the
    inverse cosine and convert to degrees.  Coordinates and intermediate
    values are real numbers; what the rounding of the double arithmetic
    does to [cosTheta] is the error term [err], any real number. *)
Definition calculateAngularDistance_spec (err ra1 dec1 ra2 dec2 : R) : option R :=
  option_map degrees (acos_c (clamp (cosTheta ra1 dec1 ra2 dec2 + err))).

(** The same computation without the clamp. *)
Definition unclamped_distance (err ra1 dec1 ra2 dec2 : R) : option R :=
  option_map degrees (acos_c (cosTheta ra1 dec1 ra2 dec2 + err)).

(** Modelled from the spec: the clamp of section 4.1 on doubles, by the
    two comparisons [x < -1] and [1 < x]. *)
Definition clamp_double (x : float) : float :=
  if (x <? -1)%float then (-1)%float
  else if (1 <? x)%float then 1%float else x.

Lemma clamp_bounds (x : R) : -1 <= clamp x <= 1.
Proof.
  unfold clamp. split.
  - apply Rmax_l.
  - apply Rmax_lub; [lra | apply Rmin_l].
Qed.

Lemma acos_c_defined (x : R) :
  -1 <= x <= 1 -> acos_c x = Some (acos x).
Proof.
  intros [H1 H2]. unfold acos_c.
  destruct (Rle_dec (-1) x); [| contradiction].
  destruct (Rle_dec x 1); [reflexivity | contradiction].
Qed.

Lemma degrees_bounds (a : R) : 0 <= a <= PI -> 0 <= degrees a <= 180.
Proof.
  intros [H0 H1]. pose proof PI_RGT_0 as HPI. unfold degrees.
  assert (Hinv : 0 < / PI) by (apply Rinv_0_lt_compat; lra).
  assert (Hq0 : 0 <= a * / PI) by (apply Rmult_le_pos; lra).
  assert (Hq1 : a * / PI <= 1).
  { replace 1 with (PI * / PI) by (field; lra).
    apply Rmult_le_compat_r; lra. }
  replace (a * 180 / PI) with (180 * (a * / PI)) by (field; lra).
  lra.
Qed.

(** C6.  In the kernel of section 4.1, for every pair of coordinates and
    every rounding error on [cosTheta], the clamped value lies in
    [-1, 1], the inverse cosine is defined on it (no NaN), and the
    distance returned lies between 0 and 180 degrees. *)
Theorem clamp_keeps_acos_defined (err ra1 dec1 ra2 dec2 : R) :
  -1 <= clamp (cosTheta ra1 dec1 ra2 dec2 + err) <= 1 /\
  exists d,
    calculateAngularDistance_spec err ra1 dec1 ra2 dec2 = Some d /\
    0 <= d <= 180.
Proof.
  pose proof (clamp_bounds (cosTheta ra1 dec1 ra2 dec2 + err)) as Hc.
  split; [exact Hc |].
  exists (degrees (acos (clamp (cosTheta ra1 dec1 ra2 dec2 + err)))). split.
  - unfold calculateAngularDistance_spec.
    rewrite acos_c_defined by exact Hc. reflexivity.
  - apply degrees_bounds. apply acos_bound.
Qed.

(** Without the clamp, two identical positions and an error of one unit
    in the sixteenth decimal leave the domain of the inverse cosine. *)
Lemma unclamped_leaves_domain :
  unclamped_distance (1 / 10 ^ 16) 10 20 10 20 = None.
Proof.
  unfold unclamped_distance, cosTheta.
  rewrite Rminus_diag, cos_0, Rmult_1_r.
  replace (sin (radians 20) * sin (radians 20) + cos (radians 20) * cos (radians 20))
    with 1.
  2:{ pose proof (sin2_cos2 (radians 20)) as H. unfold Rsqr in H. lra. }
  unfold acos_c.
  destruct (Rle_dec (-1) (1 + 1 / 10 ^ 16)); [| reflexivity].
  destruct (Rle_dec (1 + 1 / 10 ^ 16) 1) as [H | H]; [| reflexivity].
  exfalso. assert (0 < 1 / 10 ^ 16); [| lra].
  apply Rdiv_lt_0_compat; [lra | apply pow_lt; lra].
Qed.

(** The clamp on doubles: every double that is not a NaN comes out in
    [-1, 1]; a NaN stays a NaN. *)
Lemma clamp_double_in_domain (x : float) :
  isnan x = false ->
  (-1 <=? clamp_double x)%float = true /\ (clamp_double x <=? 1)%float = true.
Proof.
  intros Hx. unfold clamp_double.
  destruct (x <? -1)%float eqn:E1; [split; reflexivity |].
  destruct (1 <? x)%float eqn:E2; [split; reflexivity |].
  split; apply not_ltb_leb; trivial.
Qed.

Example clamp_double_above :
  clamp_double 0x1.0000000000001p+0%float = 1%float /\
  clamp_double nan = nan.
Proof. vm_compute. split; reflexivity. Qed.

End KernelSpec.

(* ================================================================= *)
(** * More on the engine: work per thread, NaNs, schedules, reuse *)

Lemma length_pairs_range (n : Z) (m : nat) :
  forall s e, Z.of_nat m = e - s -> e <= n ->
  2 * Z.of_nat (length (flat_map (pairs_from n) (range s e))) =
  (e - s) * (2 * n - s - e - 1).
Proof.
  induction m as [|m IH]; intros s e Hm He.
  - rewrite range_nil by lia. cbn [flat_map length]. nia.
  - rewrite range_cons by lia. cbn [flat_map].
    rewrite length_app, Nat2Z.inj_add, Z.mul_add_distr_l.
    rewrite (IH (s + 1) e) by lia.
    unfold pairs_from. rewrite length_map, length_range.
    rewrite Z2Nat.id by lia. ring.
Qed.

Lemma scanned_count_exact kernel n arr num_threads o :
  0 <= n <= INT_MAX -> 1 <= num_threads ->
  In o (segments n arr num_threads) ->
  td_count (scanned kernel n o) = Z.of_nat (length (pairs_of n o)) /\
  2 * td_count (scanned kernel n o) =
  (td_end o - td_start o) * (2 * n - td_start o - td_end o - 1).
Proof.
  intros Hn HT Ho.
  destruct (segment_bounds n arr num_threads o) as [Hs He]; [lia | lia | exact Ho |].
  assert (Hc : td_count (scanned kernel n o) = Z.of_nat (length (pairs_of n o))).
  { rewrite scanned_count. fold (pairs_of n o). unfold uint64.
    apply Z.mod_small.
    pose proof (length_part_le (pairs_of n) _ o Ho) as Hle.
    pose proof (pairs_cover n arr num_threads Hn HT) as Hc.
    fold (pairs_of n) in Hc. rewrite Hc in Hle.
    pose proof (length_all_pairs n) as Hl.
    pose proof (pair_count_bound n Hn). lia. }
  split; [exact Hc |]. rewrite Hc. unfold pairs_of.
  rewrite thread_pairs_small by lia.
  apply (length_pairs_range n (Z.to_nat (td_end o - td_start o))); lia.
Qed.

(** The work of a thread.  For every array of [n <= INT_MAX] slots, every
    thread count [num_threads >= 1] and every schedule, the thread with
    segment [start, end) counts [(end - start) * (2n - start - end - 1) / 2]
    pairs; of two full blocks [a < b] (neither the last), block [a]
    counts [(n / num_threads)^2 * (b - a)] pairs more: equal segments,
    unequal work. *)
Theorem work_per_thread
    (kernel : float -> float -> float -> float -> float) (n : Z)
    (sched : list nat) (arr : list Star) (num_threads : Z) :
  0 <= n <= INT_MAX -> Z.of_nat (length arr) = n -> 1 <= num_threads ->
  Permutation sched (in_order num_threads) ->
  exists data g,
    determineAverageAngularDistance_sched kernel n sched arr num_threads
      initial_globals = Some (data, g) /\
    (forall d, In d data ->
       2 * td_count d =
       (td_end d - td_start d) * (2 * n - td_start d - td_end d - 1)) /\
    (forall (a b : nat) da db,
       (a < b)%nat -> Z.of_nat b < num_threads - 1 ->
       nth_error data a = Some da -> nth_error data b = Some db ->
       td_count da - td_count db =
       (n / num_threads) * (n / num_threads) * (Z.of_nat b - Z.of_nat a)).
Proof.
  intros Hn _ HT Hs.
  destruct (quot_bounds n num_threads (proj1 Hn) HT) as (Hq & Hq0 & Hm).
  eexists. eexists. split.
  { apply coordinator_result; [lia | exact Hs]. }
  assert (Hform : forall d, In d (map (scanned kernel n) (segments n arr num_threads)) ->
            2 * td_count d =
            (td_end d - td_start d) * (2 * n - td_start d - td_end d - 1)).
  { intros d Hd. apply in_map_iff in Hd. destruct Hd as (o & <- & Ho).
    apply (scanned_count_exact kernel n arr num_threads o Hn HT Ho). }
  split; [exact Hform |].
  intros a b da db Hab Hb Ha Hb'.
  pose proof (Hform da (nth_error_In _ _ Ha)) as Fa.
  pose proof (Hform db (nth_error_In _ _ Hb')) as Fb.
  rewrite nth_error_map in Ha, Hb'.
  destruct (nth_error (segments n arr num_threads) a) as [oa|] eqn:Ea;
    [| discriminate].
  destruct (nth_error (segments n arr num_threads) b) as [ob|] eqn:Eb;
    [| discriminate].
  apply nth_error_segments in Ea, Eb.
  destruct Ea as [_ ->], Eb as [_ ->].
  simpl in Ha, Hb'. inversion Ha; subst da. inversion Hb'; subst db.
  clear Ha Hb'. rewrite Hq in *. unfold scanned, make_data in *.
  cbn [td_start td_end td_count] in *.
  replace (Z.of_nat a =? num_threads - 1) with false in *
    by (symmetry; apply Z.eqb_neq; lia).
  replace (Z.of_nat b =? num_threads - 1) with false in *
    by (symmetry; apply Z.eqb_neq; lia).
  nia.
Qed.

Lemma work_per_thread_witness :
  exists data g,
    determineAverageAngularDistance_sched meridian_distance 3 [2%nat; 0%nat; 1%nat]
      meridian3 3 initial_globals = Some (data, g) /\
    (forall d, In d data ->
       2 * td_count d =
       (td_end d - td_start d) * (2 * 3 - td_start d - td_end d - 1)) /\
    (forall (a b : nat) da db,
       (a < b)%nat -> Z.of_nat b < 3 - 1 ->
       nth_error data a = Some da -> nth_error data b = Some db ->
       td_count da - td_count db =
       (3 / 3) * (3 / 3) * (Z.of_nat b - Z.of_nat a)).
Proof.
  apply (work_per_thread meridian_distance 3 [2%nat; 0%nat; 1%nat] meridian3 3).
  - unfold INT_MAX. lia.
  - reflexivity.
  - lia.
  - apply (Permutation_cons_app [0%nat; 1%nat] [] 2%nat).
    apply Permutation_refl.
Defined.

(** More threads than slots.  For every array of [n <= INT_MAX] slots
    and every thread count [num_threads > n], every thread but the last
    gets the empty segment [0, 0) and counts no pair; the last thread
    gets [0, n) and counts all [n * (n - 1) / 2] pairs by itself. *)
Theorem more_threads_than_slots
    (kernel : float -> float -> float -> float -> float) (n : Z)
    (sched : list nat) (arr : list Star) (num_threads : Z) :
  0 <= n <= INT_MAX -> Z.of_nat (length arr) = n -> n < num_threads ->
  Permutation sched (in_order num_threads) ->
  exists data g,
    determineAverageAngularDistance_sched kernel n sched arr num_threads
      initial_globals = Some (data, g) /\
    length data = Z.to_nat num_threads /\
    (forall (a : nat) d,
       nth_error data a = Some d -> Z.of_nat a < num_threads - 1 ->
       td_start d = 0 /\ td_end d = 0 /\ td_count d = 0) /\
    (exists d,
       nth_error data (Z.to_nat (num_threads - 1)) = Some d /\
       td_start d = 0 /\ td_end d = n /\ td_count d = n * (n - 1) / 2).
Proof.
  intros Hn _ HT Hs.
  assert (HT1 : 1 <= num_threads) by lia.
  destruct (quot_bounds n num_threads (proj1 Hn) HT1) as (Hq & Hq0 & Hm).
  assert (Hw : n / num_threads = 0) by (apply Z.div_small; lia).
  eexists. eexists. split.
  { apply coordinator_result; [lia | exact Hs]. }
  split; [rewrite length_map; apply length_segments |].
  assert (Hform : forall o, In o (segments n arr num_threads) ->
            2 * td_count (scanned kernel n o) =
            (td_end o - td_start o) * (2 * n - td_start o - td_end o - 1))
    by (intros o Ho; apply (scanned_count_exact kernel n arr num_threads o Hn HT1 Ho)).
  split.
  - intros a d Ha Hlt. rewrite nth_error_map in Ha.
    destruct (nth_error (segments n arr num_threads) a) as [o|] eqn:Eo;
      [| discriminate].
    pose proof (Hform o (nth_error_In _ _ Eo)) as Fo.
    apply nth_error_segments in Eo. destruct Eo as [_ ->].
    simpl in Ha. inversion Ha; subst d. clear Ha.
    rewrite Hq, Hw in *. unfold scanned, make_data in *.
    cbn [td_start td_end td_count] in *.
    replace (Z.of_nat a =? num_threads - 1) with false in *
      by (symmetry; apply Z.eqb_neq; lia).
    lia.
  - exists (scanned kernel n
              (make_data n arr num_threads (Z.quot n num_threads) (num_threads - 1))).
    assert (Eo : nth_error (segments n arr num_threads) (Z.to_nat (num_threads - 1))
                 = Some (make_data n arr num_threads (Z.quot n num_threads)
                           (num_threads - 1))).
    { unfold segments. rewrite nth_error_map, nth_error_range by lia.
      simpl. f_equal. f_equal. lia. }
    split; [rewrite nth_error_map, Eo; reflexivity |].
    pose proof (Hform _ (nth_error_In _ _ Eo)) as Fo.
    rewrite Hq, Hw in *. unfold scanned, make_data in *.
    cbn [td_start td_end td_count] in *. rewrite Z.eqb_refl in *.
    split; [lia |]. split; [reflexivity |].
    apply (Z.div_unique _ 2 _ 0); [lia |]. rewrite Z.add_0_r, Fo. ring.
Qed.

Lemma more_threads_than_slots_witness :
  exists data g,
    determineAverageAngularDistance_sched meridian_distance 3
      [0%nat; 1%nat; 2%nat; 3%nat; 4%nat] meridian3 5 initial_globals
    = Some (data, g) /\
    length data = Z.to_nat 5 /\
    (forall (a : nat) d,
       nth_error data a = Some d -> Z.of_nat a < 5 - 1 ->
       td_start d = 0 /\ td_end d = 0 /\ td_count d = 0) /\
    (exists d,
       nth_error data (Z.to_nat (5 - 1)) = Some d /\
       td_start d = 0 /\ td_end d = 3 /\ td_count d = 3 * (3 - 1) / 2).
Proof.
  apply (more_threads_than_slots meridian_distance 3
           [0%nat; 1%nat; 2%nat; 3%nat; 4%nat] meridian3 5).
  - unfold INT_MAX. lia.
  - reflexivity.
  - lia.
  - apply Permutation_refl.
Defined.

Lemma global_min_below kernel n sched arr num_threads g0 :
  0 <= n <= INT_MAX -> 1 <= num_threads ->
  Permutation sched (in_order num_threads) ->
  isnan g0 = false ->
  below_all g0 (pair_distances kernel n arr)
    (fold_left lower (local_mins kernel n sched (segments n arr num_threads)) g0).
Proof.
  intros Hn HT Hs Hg.
  destruct (lower_fold (local_mins kernel n sched (segments n arr num_threads)) g0 Hg)
    as (Hm & _ & Hle & Hall).
  split; [exact Hm |]. split; [exact Hle |].
  intros d Hd Hnan.
  rewrite <- (distances_by_segment kernel n arr num_threads Hn HT) in Hd.
  apply in_concat in Hd. destruct Hd as (p & Hp & Hd).
  apply in_map_iff in Hp. destruct Hp as (o & <- & Ho).
  pose proof (local_min_least kernel n o) as (Hon & _ & _ & Hoall).
  rewrite (segments_arr n arr num_threads o Ho) in Hoall.
  apply leb_trans with (l_min (local_of kernel n o)).
  - apply Hall; [| exact Hon].
    unfold local_mins. rewrite map_map. apply in_map_iff. exists o.
    split; [reflexivity |].
    apply selected_all; [rewrite length_segments; exact Hs | exact Ho].
  - apply Hoall; assumption.
Qed.

Lemma global_max_above kernel n sched arr num_threads g0 :
  0 <= n <= INT_MAX -> 1 <= num_threads ->
  Permutation sched (in_order num_threads) ->
  isnan g0 = false ->
  above_all g0 (pair_distances kernel n arr)
    (fold_left raise (local_maxs kernel n sched (segments n arr num_threads)) g0).
Proof.
  intros Hn HT Hs Hg.
  destruct (raise_fold (local_maxs kernel n sched (segments n arr num_threads)) g0 Hg)
    as (Hm & _ & Hle & Hall).
  split; [exact Hm |]. split; [exact Hle |].
  intros d Hd Hnan.
  rewrite <- (distances_by_segment kernel n arr num_threads Hn HT) in Hd.
  apply in_concat in Hd. destruct Hd as (p & Hp & Hd).
  apply in_map_iff in Hp. destruct Hp as (o & <- & Ho).
  pose proof (local_max_greatest kernel n o) as (Hon & _ & _ & Hoall).
  rewrite (segments_arr n arr num_threads o Ho) in Hoall.
  apply leb_trans with (l_max (local_of kernel n o)).
  - apply Hoall; assumption.
  - apply Hall; [| exact Hon].
    unfold local_maxs. rewrite map_map. apply in_map_iff. exists o.
    split; [reflexivity |].
    apply selected_all; [rewrite length_segments; exact Hs | exact Ho].
Qed.

(** NaNs from the kernel.  For every kernel, every array of
    [n <= INT_MAX] slots, every thread count [num_threads >= 1] and every
    schedule, the call returns a [min] and a [max] that are not NaN, with
    [min <= DBL_MAX] and [0 <= max]; they bound every separation that is
    a number, a NaN separation being skipped by both comparisons; and if
    every separation is a NaN, [min] and [max] keep their initial
    [DBL_MAX] and [0], so that [max < min]. *)
Theorem nan_separations_skipped
    (kernel : float -> float -> float -> float -> float) (n : Z)
    (sched : list nat) (arr : list Star) (num_threads : Z) :
  0 <= n <= INT_MAX -> Z.of_nat (length arr) = n -> 1 <= num_threads ->
  Permutation sched (in_order num_threads) ->
  exists data g,
    determineAverageAngularDistance_sched kernel n sched arr num_threads
      initial_globals = Some (data, g) /\
    isnan (g_min g) = false /\ isnan (g_max g) = false /\
    (g_min g <=? DBL_MAX)%float = true /\ (0 <=? g_max g)%float = true /\
    (forall d, In d (pair_distances kernel n arr) -> isnan d = false ->
       (g_min g <=? d)%float = true /\ (d <=? g_max g)%float = true) /\
    ((forall d, In d (pair_distances kernel n arr) -> isnan d = true) ->
       g_min g = DBL_MAX /\ g_max g = 0%float /\
       (g_max g <? g_min g)%float = true).
Proof.
  intros Hn _ HT Hs.
  destruct (coordinator_mean kernel n sched arr num_threads Hn HT Hs)
    as (data & g & H1 & _ & _ & _ & Hmin & Hmax).
  destruct Hmin as (Hm & Hmin_in & Hmle & Hmall).
  destruct Hmax as (HM & Hmax_in & HMle & HMall).
  exists data, g. repeat split; trivial.
  - apply Hmall; assumption.
  - apply HMall; assumption.
  - destruct Hmin_in as [E | Hin]; [exact E |].
    rewrite (H _ Hin) in Hm. discriminate.
  - destruct Hmax_in as [E | Hin]; [exact E |].
    rewrite (H _ Hin) in HM. discriminate.
  - assert (Em : g_min g = DBL_MAX).
    { destruct Hmin_in as [E | Hin]; [exact E |].
      rewrite (H _ Hin) in Hm. discriminate. }
    assert (EM : g_max g = 0%float).
    { destruct Hmax_in as [E | Hin]; [exact E |].
      rewrite (H _ Hin) in HM. discriminate. }
    rewrite Em, EM. reflexivity.
Qed.

Lemma nan_separations_skipped_witness :
  exists data g,
    determineAverageAngularDistance_sched nan_distance 3 [1%nat; 0%nat]
      meridian3 2 initial_globals = Some (data, g) /\
    isnan (g_min g) = false /\ isnan (g_max g) = false /\
    (g_min g <=? DBL_MAX)%float = true /\ (0 <=? g_max g)%float = true /\
    (forall d, In d (pair_distances nan_distance 3 meridian3) -> isnan d = false ->
       (g_min g <=? d)%float = true /\ (d <=? g_max g)%float = true) /\
    ((forall d, In d (pair_distances nan_distance 3 meridian3) -> isnan d = true) ->
       g_min g = DBL_MAX /\ g_max g = 0%float /\
       (g_max g <? g_min g)%float = true).
Proof.
  apply (nan_separations_skipped nan_distance 3 [1%nat; 0%nat] meridian3 2).
  - unfold INT_MAX. lia.
  - reflexivity.
  - lia.
  - apply perm_swap.
Defined.

(** A kernel that fails on every pair leaves the initial values. *)
Example run_nan_kernel :
  option_map snd
    (determineAverageAngularDistance nan_distance 3 meridian3 2 initial_globals)
  = Some (mkGlobals DBL_MAX 0 0).
Proof. vm_compute. reflexivity. Qed.

(** The order of the threads.  For every array of [n <= INT_MAX] slots
    and every thread count [num_threads >= 1], two runs that differ only
    in the order in which the threads take the mutex return the same
    [data] array and the same [mean], minima that compare equal and
    maxima that compare equal (the same doubles unless both are
    zeros). *)
Theorem schedule_does_not_matter
    (kernel : float -> float -> float -> float -> float) (n : Z)
    (sched1 sched2 : list nat) (arr : list Star) (num_threads : Z) :
  0 <= n <= INT_MAX -> Z.of_nat (length arr) = n -> 1 <= num_threads ->
  Permutation sched1 (in_order num_threads) ->
  Permutation sched2 (in_order num_threads) ->
  exists data g1 g2,
    determineAverageAngularDistance_sched kernel n sched1 arr num_threads
      initial_globals = Some (data, g1) /\
    determineAverageAngularDistance_sched kernel n sched2 arr num_threads
      initial_globals = Some (data, g2) /\
    g_mean g1 = g_mean g2 /\
    (g_min g1 =? g_min g2)%float = true /\
    (g_max g1 =? g_max g2)%float = true /\
    (g_min g1 = g_min g2 \/
     ((g_min g1 =? 0)%float = true /\ (g_min g2 =? 0)%float = true)) /\
    (g_max g1 = g_max g2 \/
     ((g_max g1 =? 0)%float = true /\ (g_max g2 =? 0)%float = true)).
Proof.
  intros Hn _ HT Hs1 Hs2.
  eexists. eexists. eexists.
  split; [apply coordinator_result; [lia | exact Hs1] |].
  split; [apply coordinator_result; [lia | exact Hs2] |].
  cbn [g_min g_max g_mean initial_globals].
  split; [reflexivity |].
  assert (Emin : (fold_left lower (local_mins kernel n sched1 (segments n arr num_threads)) DBL_MAX
                  =? fold_left lower (local_mins kernel n sched2 (segments n arr num_threads)) DBL_MAX)%float
                 = true).
  { apply least_from_unique with (m0 := DBL_MAX) (l := pair_distances kernel n arr);
      apply global_min_least; assumption. }
  assert (Emax : (fold_left raise (local_maxs kernel n sched1 (segments n arr num_threads)) 0
                  =? fold_left raise (local_maxs kernel n sched2 (segments n arr num_threads)) 0)%float
                 = true).
  { apply greatest_from_unique with (m0 := 0%float) (l := pair_distances kernel n arr);
      apply global_max_greatest; assumption. }
  repeat split; trivial; apply eqb_eq_or_zero; assumption.
Qed.

Lemma schedule_does_not_matter_witness :
  exists data g1 g2,
    determineAverageAngularDistance_sched meridian_distance 3 [0%nat; 1%nat]
      meridian3 2 initial_globals = Some (data, g1) /\
    determineAverageAngularDistance_sched meridian_distance 3 [1%nat; 0%nat]
      meridian3 2 initial_globals = Some (data, g2) /\
    g_mean g1 = g_mean g2 /\
    (g_min g1 =? g_min g2)%float = true /\
    (g_max g1 =? g_max g2)%float = true /\
    (g_min g1 = g_min g2 \/
     ((g_min g1 =? 0)%float = true /\ (g_min g2 =? 0)%float = true)) /\
    (g_max g1 = g_max g2 \/
     ((g_max g1 =? 0)%float = true /\ (g_max g2 =? 0)%float = true)).
Proof.
  apply (schedule_does_not_matter meridian_distance 3 [0%nat; 1%nat] [1%nat; 0%nat]
           meridian3 2).
  - unfold INT_MAX. lia.
  - reflexivity.
  - lia.
  - apply Permutation_refl.
  - apply perm_swap.
Defined.

(** The globals are never reset.  From any previous [min] and [max] that
    are not NaN, a call on an array of [n <= INT_MAX] slots with
    [num_threads >= 1] can only lower [min] and only raise [max]; on
    return they bound every separation of the array that is a number;
    [mean] is overwritten with [0 / (n * (n - 1) / 2)], whatever it
    held. *)
Theorem globals_only_widen
    (kernel : float -> float -> float -> float -> float) (n : Z)
    (sched : list nat) (arr : list Star) (num_threads : Z) (g0 : Globals) :
  0 <= n <= INT_MAX -> Z.of_nat (length arr) = n -> 1 <= num_threads ->
  Permutation sched (in_order num_threads) ->
  isnan (g_min g0) = false -> isnan (g_max g0) = false ->
  exists data g,
    determineAverageAngularDistance_sched kernel n sched arr num_threads g0
    = Some (data, g) /\
    (g_min g <=? g_min g0)%float = true /\
    (g_max g0 <=? g_max g)%float = true /\
    (forall d, In d (pair_distances kernel n arr) -> isnan d = false ->
       (g_min g <=? d)%float = true /\ (d <=? g_max g)%float = true) /\
    g_mean g = (0 / of_uint64 (n * (n - 1) / 2))%float.
Proof.
  intros Hn _ HT Hs Hm0 HM0.
  eexists. eexists. split.
  { apply coordinator_result; [lia | exact Hs]. }
  cbn [g_min g_max g_mean].
  destruct (global_min_below kernel n sched arr num_threads (g_min g0) Hn HT Hs Hm0)
    as (_ & Hle & Hall).
  destruct (global_max_above kernel n sched arr num_threads (g_max g0) Hn HT Hs HM0)
    as (_ & HMle & HMall).
  split; [exact Hle |]. split; [exact HMle |]. split.
  - intros d Hd Hnan. split; [apply Hall | apply HMall]; assumption.
  - rewrite total_sum_scanned, total_count_scanned by assumption. reflexivity.
Qed.

Lemma globals_only_widen_witness :
  exists data g,
    determineAverageAngularDistance_sched meridian_distance 3 [1%nat; 0%nat]
      meridian3 2 (mkGlobals 10 200 7) = Some (data, g) /\
    (g_min g <=? g_min (mkGlobals 10 200 7))%float = true /\
    (g_max (mkGlobals 10 200 7) <=? g_max g)%float = true /\
    (forall d, In d (pair_distances meridian_distance 3 meridian3) ->
       isnan d = false ->
       (g_min g <=? d)%float = true /\ (d <=? g_max g)%float = true) /\
    g_mean g = (0 / of_uint64 (3 * (3 - 1) / 2))%float.
Proof.
  apply (globals_only_widen meridian_distance 3 [1%nat; 0%nat] meridian3 2
           (mkGlobals 10 200 7)).
  - unfold INT_MAX. lia.
  - reflexivity.
  - lia.
  - apply perm_swap.
  - reflexivity.
  - reflexivity.
Defined.

(** A second call on stale globals: the minimum 10 and the maximum 200
    of an earlier call survive a call on stars whose separations are 45,
    90 and 45. *)
Example run_on_stale_globals :
  option_map snd
    (determineAverageAngularDistance meridian_distance 3 meridian3 2
       (mkGlobals 10 200 7))
  = Some (mkGlobals 10 200 0).
Proof. vm_compute. reflexivity. Qed.

(** A short catalogue hides the true minimum.  In the program, for every
    catalogue that leaves at least two slots of [star_array] unread,
    every thread count [num_threads >= 1] and every schedule, if the
    kernel gives a separation equal to 0 to two positions at the origin,
    the reported minimum is at most 0: the pair of two unread slots is
    scanned with the rest. *)
Theorem short_catalog_min_at_most_zero
    (kernel : float -> float -> float -> float -> float)
    (sched : list nat) (records : list Star) (num_threads : Z) :
  Z.of_nat (length records) + 2 <= NUM_STARS -> 1 <= num_threads ->
  Permutation sched (in_order num_threads) ->
  (kernel 0 0 0 0 =? 0)%float = true ->
  exists g,
    main_sched kernel sched records num_threads = Some g /\
    (g_min g <=? 0)%float = true.
Proof.
  intros Hl HT Hs Hk.
  assert (HN : 0 <= NUM_STARS <= INT_MAX) by (unfold NUM_STARS, INT_MAX; lia).
  destruct (main_sched_result kernel sched records num_threads)
    as (sa & data & g & _ & Hsa & H2 & _ & H3 & _ & _);
    [lia | exact HT | exact Hs |].
  destruct (coordinator_mean kernel NUM_STARS sched sa num_threads HN HT Hs)
    as (data' & g' & H1 & _ & _ & _ & Hmin & _).
  rewrite H1 in H2. assert (E : g' = g) by congruence. subst g'.
  exists g. split; [exact H3 |].
  destruct Hmin as (_ & _ & _ & Hall).
  assert (Hd : pair_distance kernel sa (NUM_STARS - 2, NUM_STARS - 1)
               = kernel 0%float 0%float 0%float 0%float).
  { unfold pair_distance, distance. cbn [fst snd]. rewrite Hsa.
    rewrite !unread_slot by lia. reflexivity. }
  apply leb_trans with (kernel 0%float 0%float 0%float 0%float).
  - apply Hall.
    + rewrite <- Hd. unfold pair_distances. apply in_map.
      apply in_all_pairs. cbn [fst snd]. unfold NUM_STARS in *. lia.
    + apply eqb_leb in Hk. apply (leb_isnan _ _ Hk).
  - apply eqb_leb. exact Hk.
Qed.

Lemma short_catalog_min_at_most_zero_witness :
  exists g,
    main_sched meridian_distance [1%nat; 0%nat] meridian3 2 = Some g /\
    (g_min g <=? 0)%float = true.
Proof.
  apply (short_catalog_min_at_most_zero meridian_distance [1%nat; 0%nat] meridian3 2).
  - unfold NUM_STARS. simpl. lia.
  - lia.
  - apply perm_swap.
  - vm_compute. reflexivity.
Defined.

(* ================================================================= *)
(** * Lines and tokens *)

Lemma concat_fgets_from (fp : list ascii) :
  forall room, concat (fgets_from room fp) = fp.
Proof.
  induction fp as [|c rest IH]; intros room; [reflexivity |].
  cbn [fgets_from]. destruct (Ascii.eqb c newline).
  - cbn [concat app]. rewrite IH. reflexivity.
  - destruct room as [|[|room]].
    + cbn [concat app]. rewrite IH. reflexivity.
    + cbn [concat app]. rewrite IH. reflexivity.
    + specialize (IH (S room)). destruct (fgets_from (S room) rest) as [|l ls].
      * cbn [concat] in IH. subst rest. reflexivity.
      * cbn [concat app] in *. rewrite IH. reflexivity.
Qed.

Lemma single_line_within (c : ascii) (room : nat) :
  (1 <= room)%nat -> line_within room [c].
Proof.
  intros Hr. split; [discriminate |]. split; [exact Hr |].
  intros a b E. destruct a as [|x a].
  - injection E as _ E. symmetry. exact E.
  - injection E as _ E. destruct a; discriminate.
Qed.

Lemma fgets_from_lines (fp : list ascii) :
  forall room, (1 <= room <= MAX_LINE - 1)%nat ->
  (forall l ls, fgets_from room fp = l :: ls ->
     line_within room l /\ (ls <> [] -> line_complete room l)) /\
  (forall l1 l l2, fgets_from room fp = l1 ++ l :: l2 -> l1 <> [] ->
     line_within (MAX_LINE - 1) l /\
     (l2 <> [] -> line_complete (MAX_LINE - 1) l)).
Proof.
  assert (Hfull : (1 <= MAX_LINE - 1 <= MAX_LINE - 1)%nat)
    by (unfold MAX_LINE; lia).
  induction fp as [|c rest IH]; intros room Hr.
  { split; [discriminate |]. intros [|? ?]; discriminate. }
  assert (Hnext : forall l1 l l2,
    [c] :: fgets_from (MAX_LINE - 1) rest = l1 ++ l :: l2 -> l1 <> [] ->
    line_within (MAX_LINE - 1) l /\
    (l2 <> [] -> line_complete (MAX_LINE - 1) l)).
  { intros l1 l l2 E Hne. destruct l1 as [|y l1]; [congruence |].
    injection E as _ E. destruct (IH _ Hfull) as [IH1 IH2].
    destruct l1 as [|z l1].
    - apply (IH1 _ _ E).
    - apply (IH2 _ _ _ E). discriminate. }
  cbn [fgets_from]. destruct (Ascii.eqb c newline) eqn:Ec.
  - apply Ascii.eqb_eq in Ec. subst c. split; [| exact Hnext].
    intros l ls E. injection E as <- <-. split.
    + apply single_line_within. lia.
    + intros _. right. exists []. reflexivity.
  - apply Ascii.eqb_neq in Ec. destruct room as [|[|room]]; [lia | |].
    + split; [| exact Hnext]. intros l ls E. injection E as <- <-. split.
      * apply single_line_within. lia.
      * intros _. left. reflexivity.
    + assert (Hr' : (1 <= S room <= MAX_LINE - 1)%nat) by lia.
      destruct (IH _ Hr') as [IH1 IH2].
      destruct (fgets_from (S room) rest) as [|l0 ls0].
      * split.
        -- intros l ls E. injection E as <- <-. split.
           ++ apply single_line_within. lia.
           ++ intros H. congruence.
        -- intros l1 l l2 E Hne. destruct l1 as [|y l1]; [congruence |].
           injection E as _ E. destruct l1; discriminate.
      * destruct (IH1 _ _ eq_refl) as [(Hn & Hlen & Hnl) Hc]. split.
        -- intros l ls E. injection E as <- <-. split.
           ++ split; [discriminate |]. split; [cbn [length]; lia |].
              intros a b E. destruct a as [|x a].
              ** injection E as E _. congruence.
              ** injection E as _ E. apply (Hnl _ _ E).
           ++ intros Hls. destruct (Hc Hls) as [H | [a H]].
              ** left. cbn [length]. lia.
              ** right. exists (c :: a). rewrite H. reflexivity.
        -- intros l1 l l2 E Hne. destruct l1 as [|y l1]; [congruence |].
           injection E as _ E.
           apply (IH2 (l0 :: l1) l l2); [rewrite E; reflexivity | discriminate].
Qed.

(** The lines [fgets] delivers, put end to end, are the file; each has
    one byte at least and [MAX_LINE - 1] at most, and a newline only as
    its last byte; each but the last fills the buffer or ends with a
    newline.  So a line of more than 1023 bytes reaches the loader as
    several lines. *)
Theorem fgets_lines_spec (fp : list ascii) :
  concat (fgets_lines fp) = fp /\
  forall l1 l l2, fgets_lines fp = l1 ++ l :: l2 ->
    l <> [] /\ (length l <= MAX_LINE - 1)%nat /\
    (forall a b, l = a ++ newline :: b -> b = []) /\
    (l2 <> [] -> length l = (MAX_LINE - 1)%nat \/ exists a, l = a ++ [newline]).
Proof.
  split; [apply concat_fgets_from |].
  intros l1 l l2 E.
  assert (Hfull : (1 <= MAX_LINE - 1 <= MAX_LINE - 1)%nat)
    by (unfold MAX_LINE; lia).
  destruct (fgets_from_lines fp _ Hfull) as [H1 H2].
  assert (H : line_within (MAX_LINE - 1) l /\
              (l2 <> [] -> line_complete (MAX_LINE - 1) l)).
  { destruct l1 as [|y l1].
    - apply (H1 _ _ E).
    - apply (H2 _ _ _ E). discriminate. }
  destruct H as [(Ha & Hb & Hc) Hd]. repeat split; assumption.
Qed.

(** A line shorter than the buffer and ended by a newline is read as one
    line. *)
Lemma fgets_from_line (line rest : list ascii) :
  forall room, (length line < room)%nat -> ~ In newline line ->
  fgets_from room (line ++ newline :: rest) =
  (line ++ [newline]) :: fgets_from (MAX_LINE - 1) rest.
Proof.
  induction line as [|c line IH]; intros room Hr Hn.
  - cbn [app fgets_from]. rewrite Ascii.eqb_refl. reflexivity.
  - cbn [app fgets_from]. cbn [length] in Hr.
    destruct (Ascii.eqb c newline) eqn:Ec.
    { apply Ascii.eqb_eq in Ec. exfalso. apply Hn. left. exact Ec. }
    destruct room as [|[|room]]; [lia | lia |].
    rewrite IH; [reflexivity | lia |].
    intros H. apply Hn. right. exact H.
Qed.

Lemma c_string_plain (s : list ascii) : ~ In NUL s -> c_string s = s.
Proof.
  induction s as [|c s IH]; intros Hn; [reflexivity |].
  cbn [c_string]. destruct (Ascii.eqb c NUL) eqn:Ec.
  - apply Ascii.eqb_eq in Ec. exfalso. apply Hn. left. exact Ec.
  - rewrite IH; [reflexivity |]. intros H. apply Hn. right. exact H.
Qed.

Lemma cons_token_app (t : list ascii) (a b : list (list ascii)) :
  cons_token t (a ++ b) = cons_token t a ++ b.
Proof. destruct t; reflexivity. Qed.

Lemma split_tokens_app (l1 l2 : list ascii) :
  split_tokens (l1 ++ space :: l2) =
  (fst (split_tokens l1), snd (split_tokens l1) ++ strtok_tokens l2).
Proof.
  induction l1 as [|c l1 IH].
  - reflexivity.
  - cbn [app split_tokens]. rewrite IH. cbn [fst snd].
    destruct (Ascii.eqb c space); cbn [fst snd].
    + rewrite cons_token_app. reflexivity.
    + reflexivity.
Qed.

Lemma strtok_tokens_app (l1 l2 : list ascii) :
  strtok_tokens (l1 ++ space :: l2) = strtok_tokens l1 ++ strtok_tokens l2.
Proof.
  unfold strtok_tokens at 1. rewrite split_tokens_app. cbn [fst snd].
  rewrite cons_token_app. reflexivity.
Qed.

Lemma split_tokens_run (l : list ascii) :
  ~ In space l -> split_tokens l = (l, []).
Proof.
  induction l as [|c l IH]; intros Hn; [reflexivity |].
  cbn [split_tokens]. destruct (Ascii.eqb c space) eqn:Ec.
  - apply Ascii.eqb_eq in Ec. exfalso. apply Hn. left. exact Ec.
  - rewrite IH; [reflexivity |]. intros H. apply Hn. right. exact H.
Qed.

Lemma strtok_tokens_run (l : list ascii) :
  l <> [] -> ~ In space l -> strtok_tokens l = [l].
Proof.
  intros Hne Hn. unfold strtok_tokens. rewrite split_tokens_run by exact Hn.
  destruct l; [congruence | reflexivity].
Qed.

Lemma split_tokens_tokens (s : list ascii) :
  ~ In space (fst (split_tokens s)) /\
  Forall (fun t => t <> [] /\ ~ In space t) (snd (split_tokens s)).
Proof.
  induction s as [|c s [IH1 IH2]].
  - split; [intros [] | constructor].
  - cbn [split_tokens]. destruct (Ascii.eqb c space) eqn:Ec; cbn [fst snd].
    + split; [intros [] |].
      destruct (fst (split_tokens s)) as [|x t] eqn:E; [exact IH2 |].
      cbn [cons_token]. constructor; [| exact IH2]. split; [discriminate | exact IH1].
    + split; [| exact IH2]. apply Ascii.eqb_neq in Ec.
      intros [H | H]; [congruence | exact (IH1 H)].
Qed.

(** The tokens of a line are cut at spaces and nowhere else: the tokens
    of [l1 ++ space :: l2] are those of [l1] followed by those of [l2],
    and bytes without a space (tabs and the newline among them) are one
    token.  No token is empty or contains a space. *)
Theorem strtok_tokens_spec :
  strtok_tokens [] = [] /\
  (forall l1 l2,
     strtok_tokens (l1 ++ space :: l2) = strtok_tokens l1 ++ strtok_tokens l2) /\
  (forall l, l <> [] -> ~ In space l -> strtok_tokens l = [l]) /\
  (forall s t, In t (strtok_tokens s) -> t <> [] /\ ~ In space t).
Proof.
  split; [reflexivity |]. split; [exact strtok_tokens_app |].
  split; [exact strtok_tokens_run |].
  intros s t Ht. destruct (split_tokens_tokens s) as [H1 H2].
  unfold strtok_tokens in Ht.
  destruct (fst (split_tokens s)) as [|x r] eqn:E; cbn [cons_token] in Ht.
  - rewrite Forall_forall in H2. apply (H2 _ Ht).
  - destruct Ht as [<- | Ht].
    + split; [discriminate | exact H1].
    + rewrite Forall_forall in H2. apply (H2 _ Ht).
Qed.

(* ================================================================= *)
(** * The loading loop *)

Lemma store_store {A : Type} (k : nat) (x y : A) (l : list A) :
  store k y (store k x l) = store k y l.
Proof.
  revert k. induction l as [|h t IH]; intros [|k]; cbn [store];
    try reflexivity. rewrite IH. reflexivity.
Qed.

Lemma store_same {A : Type} (k : nat) (x : A) (l : list A) :
  nth_error l k = Some x -> store k x l = l.
Proof.
  revert k. induction l as [|h t IH]; intros [|k] H; cbn [store];
    try reflexivity.
  - injection H as ->. reflexivity.
  - rewrite IH; [reflexivity | exact H].
Qed.

Lemma store_app {A : Type} (done : list A) (x y : A) (t : list A) :
  store (length done) x (done ++ y :: t) = done ++ x :: t.
Proof.
  induction done as [|h done IH]; cbn [length app store];
    [reflexivity | rewrite IH; reflexivity].
Qed.

Lemma nth_error_stored {A : Type} (k : nat) (x s : A) (l : list A) :
  nth_error l k = Some s -> nth_error (store k x l) k = Some x.
Proof.
  intros H. rewrite nth_error_store, Nat.eqb_refl, H. reflexivity.
Qed.

Section LoadingLoop.

Variable atoi : list ascii -> Z.
Variable atof : list ascii -> float.

Lemma store_column_slot arr (k : nat) (column : Z) tok s :
  nth_error arr k = Some s -> 0 <= column <= 2 ->
  store_column atoi atof arr (Z.of_nat k) column tok =
  inr (store k
         (if column =? 0
          then mkStar (atoi tok) (RightAscension s) (Declination s)
          else if column =? 1
          then mkStar (ID s) (atof tok) (Declination s)
          else mkStar (ID s) (RightAscension s) (atof tok))
         arr).
Proof.
  intros H Hc. unfold store_column.
  destruct (Z.ltb_spec 2 column); [lia |].
  rewrite Nat2Z.id, H. reflexivity.
Qed.

Lemma read_columns_record toks arr (k : nat) :
  nth_error arr k = Some zero_star -> (length toks <= 3)%nat ->
  read_columns atoi atof toks 0 arr (Z.of_nat k) =
  inr (store k
         match toks with
         | [] => mkStar 0 0%float 0%float
         | [a] => mkStar (atoi a) 0%float 0%float
         | [a; b] => mkStar (atoi a) (atof b) 0%float
         | a :: b :: c :: _ => mkStar (atoi a) (atof b) (atof c)
         end arr).
Proof.
  intros H Hl.
  destruct toks as [|a [|b [|c [|d toks]]]]; cbn [length] in Hl; try lia.
  - cbn [read_columns]. rewrite store_same; [reflexivity | exact H].
  - cbn [read_columns]. rewrite (store_column_slot _ _ _ _ _ H) by lia.
    reflexivity.
  - cbn [read_columns]. rewrite (store_column_slot _ _ _ _ _ H) by lia.
    change (uint32 (0 + 1)) with 1.
    rewrite (store_column_slot _ _ _ _ _ (nth_error_stored _ _ _ _ H)) by lia.
    rewrite store_store. reflexivity.
  - cbn [read_columns]. rewrite (store_column_slot _ _ _ _ _ H) by lia.
    change (uint32 (0 + 1)) with 1.
    rewrite (store_column_slot _ _ _ _ _ (nth_error_stored _ _ _ _ H)) by lia.
    change (uint32 (1 + 1)) with 2.
    rewrite (store_column_slot _ _ _ _ _
               (nth_error_stored _ _ _ _ (nth_error_stored _ _ _ _ H))) by lia.
    rewrite !store_store. reflexivity.
Qed.

Lemma read_columns_many toks arr (k : nat) s :
  nth_error arr k = Some s -> (3 < length toks)%nat ->
  read_columns atoi atof toks 0 arr (Z.of_nat k) =
  inl (TooManyColumns (Z.of_nat k)).
Proof.
  intros H Hl.
  destruct toks as [|a [|b [|c [|d toks]]]]; cbn [length] in Hl; try lia.
  cbn [read_columns]. rewrite (store_column_slot _ _ _ _ _ H) by lia.
  change (uint32 (0 + 1)) with 1.
  rewrite (store_column_slot _ _ _ _ _ (nth_error_stored _ _ _ _ H)) by lia.
  change (uint32 (1 + 1)) with 2.
  rewrite (store_column_slot _ _ _ _ _
             (nth_error_stored _ _ _ _ (nth_error_stored _ _ _ _ H))) by lia.
  change (uint32 (2 + 1)) with 3. reflexivity.
Qed.

Lemma read_columns_past toks arr (k : nat) :
  nth_error arr k = None -> toks <> [] ->
  read_columns atoi atof toks 0 arr (Z.of_nat k) = inl PastTheEnd.
Proof.
  intros H Hne. destruct toks as [|a toks]; [congruence |].
  cbn [read_columns]. unfold store_column.
  change (2 <? 0) with false. cbv iota. rewrite Nat2Z.id, H. reflexivity.
Qed.

(** The loop over lines of at most three columns fills one slot per
    line. *)
Lemma read_lines_good good :
  forall rest done m,
  Forall (fun line => (columns line <= 3)%nat) good ->
  (length good <= m)%nat ->
  Z.of_nat (length done) + Z.of_nat (length good) < 2 ^ 32 ->
  read_lines atoi atof (good ++ rest) (done ++ repeat zero_star m)
    (Z.of_nat (length done)) =
  read_lines atoi atof rest
    ((done ++ map (line_record atoi atof) good)
       ++ repeat zero_star (m - length good))
    (Z.of_nat (length done + length good)).
Proof.
  induction good as [|line good IH]; intros rest done m Hg Hm Hb.
  - cbn [app map length]. rewrite app_nil_r, Nat.sub_0_r, Nat.add_0_r.
    reflexivity.
  - inversion Hg as [|? ? Hline Hgood]; subst. cbn [length] in Hm, Hb.
    destruct m as [|m]; [lia |].
    cbn [app read_lines repeat].
    rewrite read_columns_record.
    + rewrite store_app. fold (line_record atoi atof line).
      replace (uint32 (Z.of_nat (length done) + 1))
        with (Z.of_nat (length (done ++ [line_record atoi atof line]))).
      2:{ rewrite length_app. cbn [length]. unfold uint32.
          rewrite Z.mod_small by lia. lia. }
      replace (done ++ line_record atoi atof line :: repeat zero_star m)
        with ((done ++ [line_record atoi atof line]) ++ repeat zero_star m)
        by (rewrite <- app_assoc; reflexivity).
      rewrite IH.
      * rewrite length_app. cbn [length map].
        rewrite <- !app_assoc. cbn [app].
        replace (length done + 1 + length good)%nat
          with (length done + S (length good))%nat by lia.
        reflexivity.
      * exact Hgood.
      * lia.
      * rewrite length_app. cbn [length]. lia.
    + rewrite nth_error_app2 by lia. rewrite Nat.sub_diag. reflexivity.
    + exact Hline.
Qed.

(** The loading of a file whose first lines have at most three columns
    each: the loop with these lines behind it. *)
Lemma read_stars_lines (n : Z) (fp : list ascii)
    (good rest : list (list ascii)) :
  0 <= n <= INT_MAX ->
  fgets_lines fp = good ++ rest ->
  Forall (fun line => (columns line <= 3)%nat) good ->
  Z.of_nat (length good) <= n ->
  read_stars atoi atof n fp =
  read_lines atoi atof rest
    (map (line_record atoi atof) good
       ++ repeat zero_star (Z.to_nat n - length good))
    (Z.of_nat (length good)).
Proof.
  intros Hn E Hg Hl. unfold read_stars. rewrite E.
  change (repeat zero_star (Z.to_nat n))
    with (@nil Star ++ repeat zero_star (Z.to_nat n)).
  change 0 with (Z.of_nat (length (@nil Star))) at 1.
  rewrite read_lines_good.
  - reflexivity.
  - exact Hg.
  - lia.
  - cbn [length]. unfold INT_MAX in Hn. lia.
Qed.

Lemma next_slot (n : Z) (records : list Star) :
  Z.of_nat (length records) < n ->
  nth_error (records ++ repeat zero_star (Z.to_nat n - length records))
    (length records) = Some zero_star.
Proof.
  intros Hl. rewrite nth_error_app2 by lia. rewrite Nat.sub_diag.
  destruct (Z.to_nat n - length records)%nat eqn:Ed; [lia | reflexivity].
Qed.

Lemma read_lines_fourth_column bad rest arr (k : nat) s :
  nth_error arr k = Some s -> (3 < columns bad)%nat ->
  read_lines atoi atof (bad :: rest) arr (Z.of_nat k) =
  inl (TooManyColumns (Z.of_nat k)).
Proof.
  intros H Hb. cbn [read_lines].
  rewrite read_columns_many with (s := s); [reflexivity | exact H | exact Hb].
Qed.

(** A file of at most [n] lines of at most three columns each is loaded
    without error: slot [k] holds the record of line [k], a column that
    is missing leaves a zero, the slots after the last line keep their
    zeros, and [star_count] is the number of lines (empty lines
    included). *)
Theorem read_stars_loads (n : Z) (fp : list ascii) :
  0 <= n <= INT_MAX ->
  Z.of_nat (length (fgets_lines fp)) <= n ->
  Forall (fun line => (columns line <= 3)%nat) (fgets_lines fp) ->
  read_stars atoi atof n fp =
  inr (map (line_record atoi atof) (fgets_lines fp)
         ++ repeat zero_star (Z.to_nat n - length (fgets_lines fp)),
       Z.of_nat (length (fgets_lines fp))).
Proof.
  intros Hn Hl Hc.
  rewrite (read_stars_lines n fp (fgets_lines fp) []);
    [reflexivity | exact Hn | symmetry; apply app_nil_r | exact Hc | exact Hl].
Qed.

(** The first line with more than three columns stops the loading: the
    number reported is the number of lines before it (counted from
    zero). *)
Theorem read_stars_too_many_columns (n : Z) (fp : list ascii)
    (good : list (list ascii)) (bad : list ascii) (rest : list (list ascii)) :
  0 <= n <= INT_MAX ->
  fgets_lines fp = good ++ bad :: rest ->
  Forall (fun line => (columns line <= 3)%nat) good ->
  (3 < columns bad)%nat ->
  Z.of_nat (length good) < n ->
  read_stars atoi atof n fp =
  inl (TooManyColumns (Z.of_nat (length good))).
Proof.
  intros Hn E Hg Hb Hl.
  rewrite (read_stars_lines n fp good (bad :: rest) Hn E Hg) by lia.
  rewrite <- (length_map (line_record atoi atof) good).
  apply read_lines_fourth_column with (s := zero_star); [| exact Hb].
  apply next_slot. rewrite length_map. exact Hl.
Qed.

(** The loading loop has no bound: after [n] lines the next line with a
    column is written past the last slot of the array. *)
Theorem read_stars_past_the_end (n : Z) (fp : list ascii)
    (good : list (list ascii)) (next : list ascii) (rest : list (list ascii)) :
  0 <= n <= INT_MAX ->
  fgets_lines fp = good ++ next :: rest ->
  Forall (fun line => (columns line <= 3)%nat) good ->
  Z.of_nat (length good) = n ->
  (0 < columns next)%nat ->
  read_stars atoi atof n fp = inl PastTheEnd.
Proof.
  intros Hn E Hg Hl Hc.
  rewrite (read_stars_lines n fp good (next :: rest) Hn E Hg) by lia.
  cbn [read_lines]. rewrite read_columns_past; [reflexivity | |].
  - apply nth_error_None. rewrite length_app, length_map, repeat_length. lia.
  - unfold columns in Hc. destruct (strtok_tokens (c_string next));
      [cbn [length] in Hc; lia | discriminate].
Qed.

End LoadingLoop.

(* ================================================================= *)
(** * Well-formed catalogue files *)

Lemma field_bytes (t : list ascii) :
  field t = true ->
  t <> [] /\ ~ In space t /\ ~ In newline t /\ ~ In NUL t.
Proof.
  intros H. split; [destruct t; [discriminate H | discriminate] |].
  assert (F : forall c, In c t ->
    Ascii.eqb c space = false /\ Ascii.eqb c newline = false /\
    Ascii.eqb c NUL = false).
  { destruct t as [|x t]; [intros c [] |]. unfold field in H.
    rewrite forallb_forall in H. intros c Hc. specialize (H c Hc).
    apply negb_true_iff in H. apply orb_false_iff in H. destruct H as [H H3].
    apply orb_false_iff in H. destruct H as [H1 H2]. repeat split; assumption. }
  repeat split; intros Hin; apply F in Hin; destruct Hin as (H1 & H2 & H3);
    rewrite Ascii.eqb_refl in *; discriminate.
Qed.

Lemma not_in_app {A : Type} (x : A) (l1 l2 : list A) :
  ~ In x l1 -> ~ In x l2 -> ~ In x (l1 ++ l2).
Proof. intros H1 H2 H. apply in_app_or in H. tauto. Qed.

Lemma not_in_cons {A : Type} (x y : A) (l : list A) :
  y <> x -> ~ In x l -> ~ In x (y :: l).
Proof. intros H1 H2 [H | H]; tauto. Qed.

(** The lines [fgets] cuts a file of well-formed rows into are its
    rows. *)
Lemma fgets_rows rows (tail : list ascii) :
  forallb row_ok rows = true ->
  fgets_from (MAX_LINE - 1) (concat (map row_line rows) ++ tail) =
  map row_line rows ++ fgets_from (MAX_LINE - 1) tail.
Proof.
  induction rows as [|[[a b] c] rows IH]; intros H; [reflexivity |].
  cbn [forallb] in H. apply andb_true_iff in H. destruct H as [Hr H].
  unfold row_ok in Hr. cbn [fst snd] in Hr.
  apply andb_true_iff in Hr. destruct Hr as [Hr Hlen].
  apply andb_true_iff in Hr. destruct Hr as [Hr Hc].
  apply andb_true_iff in Hr. destruct Hr as [Ha Hb].
  apply field_bytes in Ha, Hb, Hc.
  destruct Ha as (_ & _ & Ha & _), Hb as (_ & _ & Hb & _),
    Hc as (_ & _ & Hc & _).
  apply Nat.leb_le in Hlen.
  assert (Eline : forall R, row_line (a, b, c) ++ R =
            (a ++ space :: b ++ space :: c) ++ newline :: R).
  { intros R. unfold row_line. cbn [fst snd].
    repeat (rewrite <- app_assoc; cbn [app]). reflexivity. }
  assert (Hlen' : (length (a ++ space :: b ++ space :: c) < MAX_LINE - 1)%nat).
  { rewrite <- (app_nil_r (row_line (a, b, c))), Eline, length_app in Hlen.
    cbn [length] in Hlen. lia. }
  cbn [map concat]. rewrite <- app_assoc, Eline.
  rewrite fgets_from_line.
  - rewrite IH by exact H. rewrite <- Eline, app_nil_r. reflexivity.
  - exact Hlen'.
  - apply not_in_app; [exact Ha |]. apply not_in_cons; [discriminate |].
    apply not_in_app; [exact Hb |]. apply not_in_cons; [discriminate |].
    exact Hc.
Qed.

Lemma row_tokens a b c :
  row_ok (a, b, c) = true ->
  strtok_tokens (c_string (row_line (a, b, c))) = [a; b; c ++ [newline]].
Proof.
  intros Hr. unfold row_ok in Hr. cbn [fst snd] in Hr.
  apply andb_true_iff in Hr. destruct Hr as [Hr _].
  apply andb_true_iff in Hr. destruct Hr as [Hr Hc].
  apply andb_true_iff in Hr. destruct Hr as [Ha Hb].
  apply field_bytes in Ha, Hb, Hc.
  destruct Ha as (Ha0 & Ha1 & _ & Ha2), Hb as (Hb0 & Hb1 & _ & Hb2),
    Hc as (Hc0 & Hc1 & _ & Hc2).
  unfold row_line. cbn [fst snd].
  rewrite c_string_plain.
  - rewrite !strtok_tokens_app.
    rewrite (strtok_tokens_run a), (strtok_tokens_run b) by assumption.
    rewrite strtok_tokens_run; [reflexivity | |].
    + destruct c; discriminate.
    + apply not_in_app; [exact Hc1 |]. apply not_in_cons; [discriminate |].
      intros [].
  - apply not_in_app; [exact Ha2 |]. apply not_in_cons; [discriminate |].
    apply not_in_app; [exact Hb2 |]. apply not_in_cons; [discriminate |].
    apply not_in_app; [exact Hc2 |]. apply not_in_cons; [discriminate |].
    intros [].
Qed.

Lemma trailing_space_tokens a b c :
  field a = true -> field b = true -> field c = true ->
  strtok_tokens (c_string (row_line_trailing_space (a, b, c))) =
  [a; b; c; [newline]].
Proof.
  intros Ha Hb Hc. apply field_bytes in Ha, Hb, Hc.
  destruct Ha as (Ha0 & Ha1 & _ & Ha2), Hb as (Hb0 & Hb1 & _ & Hb2),
    Hc as (Hc0 & Hc1 & _ & Hc2).
  unfold row_line_trailing_space. cbn [fst snd].
  rewrite c_string_plain.
  - change (c ++ [space; newline]) with (c ++ space :: [newline]).
    rewrite !strtok_tokens_app.
    rewrite (strtok_tokens_run a), (strtok_tokens_run b),
      (strtok_tokens_run c) by assumption.
    reflexivity.
  - apply not_in_app; [exact Ha2 |]. apply not_in_cons; [discriminate |].
    apply not_in_app; [exact Hb2 |]. apply not_in_cons; [discriminate |].
    apply not_in_app; [exact Hc2 |]. apply not_in_cons; [discriminate |].
    apply not_in_cons; [discriminate |]. intros [].
Qed.

Lemma rows_columns rows :
  forallb row_ok rows = true ->
  Forall (fun line => (columns line <= 3)%nat) (map row_line rows).
Proof.
  intros H. apply Forall_forall. intros line Hl.
  apply in_map_iff in Hl. destruct Hl as ([[a b] c] & <- & Hr).
  rewrite forallb_forall in H. specialize (H _ Hr).
  unfold columns. rewrite row_tokens by exact H. cbn [length]. lia.
Qed.

Lemma rows_records atoi atof rows :
  forallb row_ok rows = true ->
  map (line_record atoi atof) (map row_line rows) =
  map (row_star atoi atof) rows.
Proof.
  intros H. rewrite map_map. apply map_ext_in. intros [[a b] c] Hr.
  rewrite forallb_forall in H. specialize (H _ Hr).
  unfold line_record. rewrite row_tokens by exact H. reflexivity.
Qed.

(** Bytes to records: a file of at most [n] rows [a b c] of three fields
    separated by one space each is loaded as the records
    [(atoi a, atof b, atof (c ++ newline))], in order. *)
Theorem well_formed_file_loads atoi atof (n : Z)
    (rows : list (list ascii * list ascii * list ascii)) :
  0 <= n <= INT_MAX ->
  Z.of_nat (length rows) <= n ->
  forallb row_ok rows = true ->
  read_stars atoi atof n (concat (map row_line rows)) =
  inr (map (row_star atoi atof) rows
         ++ repeat zero_star (Z.to_nat n - length rows),
       Z.of_nat (length rows)).
Proof.
  intros Hn Hl Hr.
  assert (E : fgets_lines (concat (map row_line rows)) = map row_line rows).
  { unfold fgets_lines.
    rewrite <- (app_nil_r (concat (map row_line rows))).
    rewrite fgets_rows by exact Hr. cbn [fgets_from]. apply app_nil_r. }
  rewrite (read_stars_lines atoi atof n _ (map row_line rows) []).
  - cbn [read_lines]. rewrite rows_records by exact Hr.
    rewrite length_map. reflexivity.
  - exact Hn.
  - rewrite E. symmetry. apply app_nil_r.
  - apply rows_columns. exact Hr.
  - rewrite length_map. exact Hl.
Qed.

(** A space between the third field and the newline makes the newline
    a fourth column: the line is rejected with its number. *)
Theorem space_before_newline_rejected atoi atof (n : Z)
    (rows : list (list ascii * list ascii * list ascii))
    (a b c rest : list ascii) :
  0 <= n <= INT_MAX ->
  Z.of_nat (length rows) < n ->
  forallb row_ok rows = true ->
  field a = true -> field b = true -> field c = true ->
  (length (row_line_trailing_space (a, b, c)) <= MAX_LINE - 1)%nat ->
  read_stars atoi atof n
    (concat (map row_line rows) ++ row_line_trailing_space (a, b, c) ++ rest) =
  inl (TooManyColumns (Z.of_nat (length rows))).
Proof.
  intros Hn Hl Hr Ha Hb Hc Hlen.
  assert (E : fgets_lines (concat (map row_line rows)
                ++ row_line_trailing_space (a, b, c) ++ rest) =
              map row_line rows
                ++ row_line_trailing_space (a, b, c) :: fgets_lines rest).
  { unfold fgets_lines. rewrite fgets_rows by exact Hr. f_equal.
    pose proof (field_bytes _ Ha) as (_ & _ & Ha' & _).
    pose proof (field_bytes _ Hb) as (_ & _ & Hb' & _).
    pose proof (field_bytes _ Hc) as (_ & _ & Hc' & _).
    assert (Eline : forall R, row_line_trailing_space (a, b, c) ++ R =
              (a ++ space :: b ++ space :: c ++ [space]) ++ newline :: R).
    { intros R. unfold row_line_trailing_space. cbn [fst snd].
      repeat (rewrite <- app_assoc; cbn [app]). reflexivity. }
    rewrite <- (app_nil_r (row_line_trailing_space (a, b, c))), Eline,
      length_app in Hlen.
    cbn [length] in Hlen.
    rewrite Eline, fgets_from_line.
    - rewrite <- Eline, app_nil_r. reflexivity.
    - lia.
    - apply not_in_app; [exact Ha' |]. apply not_in_cons; [discriminate |].
      apply not_in_app; [exact Hb' |]. apply not_in_cons; [discriminate |].
      apply not_in_app; [exact Hc' |]. apply not_in_cons; [discriminate |].
      intros []. }
  rewrite (read_stars_lines atoi atof n _ _ _ Hn E).
  - rewrite rows_records by exact Hr. rewrite length_map.
    rewrite <- (length_map (row_star atoi atof) rows).
    apply read_lines_fourth_column with (s := zero_star).
    + apply next_slot. rewrite length_map. exact Hl.
    + unfold columns. rewrite trailing_space_tokens by assumption.
      cbn [length]. lia.
  - apply rows_columns. exact Hr.
  - rewrite length_map. lia.
Qed.

(* ================================================================= *)
(** * Options and the report *)

Lemma last_thread_count atoi opts :
  forall o d1 d2 e1 e2, find ends_options (o :: opts) = None ->
  last (map (thread_count_of atoi d1) (o :: opts)) e1 =
  last (map (thread_count_of atoi d2) (o :: opts)) e2.
Proof.
  induction opts as [|o' opts IH]; intros o d1 d2 e1 e2 H.
  - destruct o; [reflexivity | discriminate H | discriminate H].
  - assert (H' : find ends_options (o' :: opts) = None).
    { cbn [find] in H. destruct (ends_options o); [discriminate H | exact H]. }
    change (last (map (thread_count_of atoi d1) (o' :: opts)) e1 =
            last (map (thread_count_of atoi d2) (o' :: opts)) e2).
    apply IH. exact H'.
Qed.

(** The option loop: the first option that is not [-t] decides, exit
    status 0 for [-h] and 1 for any other, whatever [-t] came before it;
    without one the last [-t] gives the thread count, the initial value
    when there is none.  The argument of [-t] is not checked. *)
Theorem parse_options_spec atoi (opts : list GetOpt) (d : Z) :
  parse_options atoi opts d =
  match find ends_options opts with
  | Some opt_h => inl 0
  | Some _ => inl 1
  | None => inr (last (map (thread_count_of atoi d) opts) d)
  end.
Proof.
  revert d. induction opts as [|o opts IH]; intros d; [reflexivity |].
  destruct o as [optarg | |]; cbn [parse_options find ends_options];
    try reflexivity.
  rewrite IH. destruct (find ends_options opts) as [o |] eqn:Ef;
    [reflexivity |].
  f_equal. destruct opts as [|o' opts]; [reflexivity |].
  change (last (map (thread_count_of atoi (atoi optarg)) (o' :: opts))
            (atoi optarg) =
          last (map (thread_count_of atoi d) (o' :: opts)) d).
  apply last_thread_count. exact Ef.
Qed.

(** [main] from the bytes of the file to the report: with a thread
    count of one at least and a file of at most [NUM_STARS] lines of at
    most three columns, [main] exits with status 0 after printing the
    number of lines, an average distance of 0 whatever the file holds,
    and the minimum and maximum of the engine on the loaded records. *)
Theorem main_reports atoi atof kernel (sched : list nat) (opts : list GetOpt)
    (fp : list ascii) (num_threads : Z) :
  parse_options atoi opts 1 = inr num_threads ->
  1 <= num_threads ->
  Permutation sched (in_order num_threads) ->
  Z.of_nat (length (fgets_lines fp)) <= NUM_STARS ->
  Forall (fun line => (columns line <= 3)%nat) (fgets_lines fp) ->
  exists g,
    main_sched kernel sched
      (map (line_record atoi atof) (fgets_lines fp)) num_threads = Some g /\
    main atoi atof kernel sched opts true (Some fp) =
    Exit 0 [RecordsRead (Z.of_nat (length (fgets_lines fp)));
            AverageDistance 0%float;
            MinimumDistance (g_min g);
            MaximumDistance (g_max g);
            TimeTaken].
Proof.
  intros Ho HT Hs Hl Hc.
  assert (HN : 0 <= NUM_STARS <= INT_MAX) by (unfold NUM_STARS, INT_MAX; lia).
  assert (Hl' : Z.of_nat (length (map (line_record atoi atof) (fgets_lines fp)))
                <= NUM_STARS) by (rewrite length_map; exact Hl).
  destruct (main_sched_result kernel sched _ num_threads Hl' HT Hs)
    as (star_array & data & g & _ & Ea & Er & _ & Em & _ & Hmean).
  exists g. split; [exact Em |].
  unfold main. rewrite Ho. cbn [negb].
  rewrite (read_stars_lines atoi atof NUM_STARS fp (fgets_lines fp) [] HN)
    by (trivial; symmetry; apply app_nil_r).
  cbn [read_lines].
  rewrite length_map in Ea. rewrite <- Ea, Er, Hmean. reflexivity.
Qed.

Example file3_rows : concat (map row_line rows3) = file3.
Proof. reflexivity. Qed.

Example load_file3 :
  read_stars atoi_digits atof_digits 4 file3 = inr (meridian3 ++ [zero_star], 3).
Proof. vm_compute. reflexivity. Qed.

Lemma fgets_lines_spec_witness :
  concat (fgets_lines file3) = file3 /\
  (length (bytes "1 0 0" ++ [newline]) <= MAX_LINE - 1)%nat.
Proof.
  destruct (fgets_lines_spec file3) as [H1 H2]. split; [exact H1 |].
  destruct (H2 [] (bytes "1 0 0" ++ [newline])
              [bytes "2 0 45" ++ [newline]; bytes "3 0 90" ++ [newline]]
              eq_refl) as (_ & H & _).
  exact H.
Defined.

Lemma strtok_tokens_spec_witness :
  strtok_tokens (bytes "45") = [bytes "45"].
Proof.
  destruct strtok_tokens_spec as (_ & _ & H & _).
  apply (H (bytes "45")).
  - discriminate.
  - intros [H1 | [H1 | []]]; discriminate H1.
Defined.

Lemma read_stars_loads_witness :
  read_stars atoi_digits atof_digits 4 file3 =
  inr (map (line_record atoi_digits atof_digits) (fgets_lines file3)
         ++ repeat zero_star (Z.to_nat 4 - length (fgets_lines file3)),
       Z.of_nat (length (fgets_lines file3))).
Proof.
  apply (read_stars_loads atoi_digits atof_digits 4 file3).
  - unfold INT_MAX. lia.
  - vm_compute. discriminate.
  - vm_compute. repeat constructor.
Defined.

Lemma read_stars_too_many_columns_witness :
  read_stars atoi_digits atof_digits 4 file3_trailing_space =
  inl (TooManyColumns (Z.of_nat (length (@nil (list ascii))))).
Proof.
  apply (read_stars_too_many_columns atoi_digits atof_digits 4
           file3_trailing_space [] (bytes "1 0 0 " ++ [newline])
           [bytes "2 0 45" ++ [newline]]).
  - unfold INT_MAX. lia.
  - reflexivity.
  - constructor.
  - vm_compute. repeat constructor.
  - simpl. lia.
Defined.

Lemma read_stars_past_the_end_witness :
  read_stars atoi_digits atof_digits 2 file3 = inl PastTheEnd.
Proof.
  apply (read_stars_past_the_end atoi_digits atof_digits 2 file3
           [bytes "1 0 0" ++ [newline]; bytes "2 0 45" ++ [newline]]
           (bytes "3 0 90" ++ [newline]) []).
  - unfold INT_MAX. lia.
  - reflexivity.
  - vm_compute. repeat constructor.
  - reflexivity.
  - vm_compute. repeat constructor.
Defined.

Lemma well_formed_file_loads_witness :
  read_stars atoi_digits atof_digits 4 (concat (map row_line rows3)) =
  inr (map (row_star atoi_digits atof_digits) rows3
         ++ repeat zero_star (Z.to_nat 4 - length rows3),
       Z.of_nat (length rows3)).
Proof.
  apply (well_formed_file_loads atoi_digits atof_digits 4 rows3).
  - unfold INT_MAX. lia.
  - simpl. lia.
  - reflexivity.
Defined.

Lemma space_before_newline_rejected_witness :
  read_stars atoi_digits atof_digits 4
    (concat (map row_line [(bytes "1", bytes "0", bytes "0")])
       ++ row_line_trailing_space (bytes "2", bytes "0", bytes "45") ++ []) =
  inl (TooManyColumns
         (Z.of_nat (length [(bytes "1", bytes "0", bytes "0")]))).
Proof.
  apply (space_before_newline_rejected atoi_digits atof_digits 4
           [(bytes "1", bytes "0", bytes "0")]
           (bytes "2") (bytes "0") (bytes "45") []).
  - unfold INT_MAX. lia.
  - simpl. lia.
  - reflexivity.
  - reflexivity.
  - reflexivity.
  - reflexivity.
  - vm_compute. repeat constructor.
Defined.

Lemma main_reports_witness :
  exists g,
    main_sched meridian_distance [1%nat; 0%nat]
      (map (line_record atoi_digits atof_digits) (fgets_lines file3)) 2
    = Some g /\
    main atoi_digits atof_digits meridian_distance [1%nat; 0%nat]
      [opt_t (bytes "2")] true (Some file3) =
    Exit 0 [RecordsRead (Z.of_nat (length (fgets_lines file3)));
            AverageDistance 0%float;
            MinimumDistance (g_min g);
            MaximumDistance (g_max g);
            TimeTaken].
Proof.
  apply (main_reports atoi_digits atof_digits meridian_distance
           [1%nat; 0%nat] [opt_t (bytes "2")] file3 2).
  - reflexivity.
  - lia.
  - apply perm_swap.
  - vm_compute. discriminate.
  - vm_compute. repeat constructor.
Defined.
